(** * Layer-name cleaner: the name classifier and the rename orchestrator

    A shallow embedding of [src/figma-node-types.ts] (node-kind registry and
    the host-name patterns) and of [src/main.ts] (the classifier
    [isFigmaOrPluginGeneratedName] and the tree-walking rename functions),
    followed by the properties of the written specification.

    JavaScript strings are sequences of UTF-16 code units; they are modelled
    as [list N].  The three regular expressions of the source are kept as
    regular expressions and run by a derivative matcher. *)

From Stdlib Require Import NArith String Ascii List Bool Lia.
From stdpp Require Import base decidable countable list gmap.
Import ListNotations.

Local Open Scope N_scope.

(* ===================================================================== *)
(** ** JavaScript strings *)
(* ===================================================================== *)

Definition jsstring : Type := list N.

(** The code units of an ASCII literal of the source text. *)
Definition js (s : string) : jsstring :=
  List.map N_of_ascii (list_ascii_of_string s).

(** [a === b] on strings. *)
Definition str_eqb (a b : jsstring) : bool := bool_decide (a = b).

(* ===================================================================== *)
(** ** Regular expressions *)
(* ===================================================================== *)

Module Regex.

(** Patterns over code units.  A character atom is a class, given by its
    membership test. *)
Inductive regex : Type :=
| Never                      (* matches nothing *)
| Empty                      (* matches the empty string *)
| Class (p : N -> bool)      (* one code unit of the class *)
| Seq (r1 r2 : regex)
| Alt (r1 r2 : regex)
| Star (r : regex).

Definition Plus (r : regex) : regex := Seq r (Star r).       (* r+ *)
Definition Opt (r : regex) : regex := Alt r Empty.           (* r? *)

(** [a|b|...] for a list of alternatives, as produced by [join("|")]. *)
Definition alternation (rs : list regex) : regex :=
  List.fold_right Alt Never rs.

(** Concatenation of a list of atoms. *)
Definition sequence (rs : list regex) : regex :=
  List.fold_right Seq Empty rs.

Fixpoint nullable (r : regex) : bool :=
  match r with
  | Never => false
  | Empty => true
  | Class _ => false
  | Seq r1 r2 => nullable r1 && nullable r2
  | Alt r1 r2 => nullable r1 || nullable r2
  | Star _ => true
  end.

(** The derivative of [r] by the code unit [c]. *)
Fixpoint deriv (c : N) (r : regex) : regex :=
  match r with
  | Never => Never
  | Empty => Never
  | Class p => if p c then Empty else Never
  | Seq r1 r2 =>
      if nullable r1
      then Alt (Seq (deriv c r1) r2) (deriv c r2)
      else Seq (deriv c r1) r2
  | Alt r1 r2 => Alt (deriv c r1) (deriv c r2)
  | Star r1 => Seq (deriv c r1) (Star r1)
  end.

(** [/^r$/.test(s)]: the pattern is anchored at both ends and carries
    neither the [g] nor the [m] flag, so [test] holds exactly when the
    whole string is in the language of [r]. *)
Fixpoint test (r : regex) (s : jsstring) : bool :=
  match s with
  | [] => nullable r
  | c :: s' => test (deriv c r) s'
  end.

(** The language of a pattern, for stating what [test] decides. *)
Inductive lang : regex -> jsstring -> Prop :=
| lang_Empty : lang Empty []
| lang_Class p c : p c = true -> lang (Class p) [c]
| lang_Seq r1 r2 s1 s2 :
    lang r1 s1 -> lang r2 s2 -> lang (Seq r1 r2) (s1 ++ s2)
| lang_AltL r1 r2 s : lang r1 s -> lang (Alt r1 r2) s
| lang_AltR r1 r2 s : lang r2 s -> lang (Alt r1 r2) s
| lang_Star0 r : lang (Star r) []
| lang_StarS r s1 s2 :
    lang r s1 -> lang (Star r) s2 -> lang (Star r) (s1 ++ s2).

(** *** Character classes of ECMAScript *)

(** [\s]: WhiteSpace and LineTerminator code units. *)
Definition is_space (c : N) : bool :=
  (c =? 0x09) || (c =? 0x0A) || (c =? 0x0B) || (c =? 0x0C) || (c =? 0x0D)
  || (c =? 0x20) || (c =? 0xA0) || (c =? 0x1680)
  || ((0x2000 <=? c) && (c <=? 0x200A))
  || (c =? 0x2028) || (c =? 0x2029) || (c =? 0x202F) || (c =? 0x205F)
  || (c =? 0x3000) || (c =? 0xFEFF).

(** [\S] *)
Definition is_nonspace (c : N) : bool := negb (is_space c).

(** [\d] *)
Definition is_digit (c : N) : bool := (0x30 <=? c) && (c <=? 0x39).

(** *** Case folding of the [i] flag

    Without the [u] flag a code unit is canonicalised through
    [toUppercase]; a result that is not a single code unit, or that would
    send a non-ASCII unit into ASCII, is dropped. *)

Definition ascii_upper (c : N) : N :=
  if (0x61 <=? c) && (c <=? 0x7A) then c - 0x20 else c.

Definition ascii_lower (c : N) : N :=
  if (0x41 <=? c) && (c <=? 0x5A) then c + 0x20 else c.

Section IgnoreCase.
(** The Unicode upper-case mapping outside ASCII is a table of the host;
    it is a parameter of the model. *)
Variable unicodeUpper : N -> list N.

Definition toUppercase (ch : N) : list N :=
  if ch <? 128 then [ascii_upper ch] else unicodeUpper ch.

Definition Canonicalize (ch : N) : N :=
  match toUppercase ch with
  | [cu] => if (128 <=? ch) && (cu <? 128) then ch else cu
  | _ => ch
  end.

(** A source character under the [i] flag. *)
Definition char_i (p : N) : regex :=
  Class (fun c => Canonicalize c =? Canonicalize p).

(** A literal word under the [i] flag. *)
Definition literal_i (w : jsstring) : regex :=
  sequence (List.map char_i w).
End IgnoreCase.

(** A source character and a literal word without flags. *)
Definition char (p : N) : regex := Class (N.eqb p).

Definition literal (w : jsstring) : regex :=
  sequence (List.map char w).

End Regex.

Import Regex.

(* ===================================================================== *)
(** ** figma-node-types.ts *)
(* ===================================================================== *)

Definition ALL_FIGMA_NODE_TYPES : list jsstring :=
  List.map js
    [ "SLICE"; "FRAME"; "GROUP"; "COMPONENT_SET"; "COMPONENT"; "INSTANCE";
      "BOOLEAN_OPERATION"; "VECTOR"; "STAR"; "LINE"; "ELLIPSE"; "POLYGON";
      "RECTANGLE"; "TEXT"; "STICKY"; "CONNECTOR"; "SHAPE_WITH_TEXT";
      "CODE_BLOCK"; "STAMP"; "WIDGET"; "EMBED"; "LINK_UNFURL"; "MEDIA";
      "SECTION"; "HIGHLIGHT"; "WASHI_TAPE"; "TABLE" ]%string.

Definition BOOLEAN_OPERATIONS : list jsstring :=
  List.map js [ "Union"; "Intersect"; "Subtract"; "Exclude" ]%string.

(** [new Set<string>(ALL_FIGMA_NODE_TYPES)] *)
Definition validNodeTypeCache : gset jsstring :=
  list_to_set ALL_FIGMA_NODE_TYPES.

Definition isValidFigmaNodeType (type : jsstring) : bool :=
  bool_decide (type ∈ validNodeTypeCache).

(** [/^\S+\s\d+$/] *)
Definition figmaNameWithNumberRegex : regex :=
  Seq (Plus (Class is_nonspace)) (Seq (Class is_space) (Plus (Class is_digit))).

Section FigmaNodeTypes.
Variable unicodeUpper : N -> list N.

(** [new RegExp(`^(${[...ALL_FIGMA_NODE_TYPES, ...BOOLEAN_OPERATIONS].join("|")})$`, "i")] *)
Definition figmaNameRegex : regex :=
  alternation
    (List.map (literal_i unicodeUpper)
       (ALL_FIGMA_NODE_TYPES ++ BOOLEAN_OPERATIONS)).

Definition isFigmaGeneratedName (name : jsstring) : bool :=
  test figmaNameRegex name || test figmaNameWithNumberRegex name.
End FigmaNodeTypes.


(* ===================================================================== *)
(** ** The host document *)
(* ===================================================================== *)

Module Options.
(** [AllOptions] of [src/types.ts], as received with the RENAME command. *)
Record AllOptions : Type := mkOptions {
  locked : bool;
  hidden : bool;
  instance : bool;
  showSpacing : bool;
  renameCustomNames : bool;
  usePascalCase : bool
}.
End Options.
Export Options(AllOptions, mkOptions).

Module Node.
(** A scene node with the fields the plugin reads.  [children = None] is a
    node without a [children] property; [autoRename] is read on TEXT nodes
    only.  The document is a tree: a node is given with its subtree, and a
    mutation in place is the node returned with the new name.  The roots of
    a selection are taken to be disjoint subtrees. *)
#[local] Unset Elimination Schemes.
Inductive SceneNode : Type := mkNode {
  id : jsstring;
  name : jsstring;
  type : jsstring;
  locked : bool;
  visible : bool;
  autoRename : bool;
  children : option (list SceneNode)
}.
#[local] Set Elimination Schemes.

(** [node.name = newName] *)
Definition set_name (node : SceneNode) (newName : jsstring) : SceneNode :=
  mkNode (id node) newName (type node) (locked node) (visible node)
         (autoRename node) (children node).

(** The node after its children were processed in place. *)
Definition with_children (node : SceneNode) (cs : list SceneNode) : SceneNode :=
  mkNode (id node) (name node) (type node) (locked node) (visible node)
         (autoRename node) (Some cs).

(** The node with every name of its subtree blanked: what is left of a
    document when names are ignored. *)
Fixpoint erase_names (node : SceneNode) : SceneNode :=
  match node with
  | mkNode i _ t l v a cs =>
      mkNode i [] t l v a (option_map (List.map erase_names) cs)
  end.

End Node.
Export Node(SceneNode, mkNode).

(* ===================================================================== *)
(** ** Effects: console, notifications, promises *)
(* ===================================================================== *)

Definition Error : Type := jsstring.

Inductive Event : Type :=
| console_warn (type : jsstring)             (* unknown node type *)
| console_error (id : jsstring) (e : Error)  (* rename error (id) *)
| figma_notify (name : jsstring)             (* rename failed: name *)
| setTimeout0.                               (* pause between two batches *)

(** How an awaited computation ends. *)
Inductive Completion (A : Type) : Type :=
| Return (a : A)
| Throw (e : Error)
| Pending.
Arguments Return {A} a.
Arguments Throw {A} e.
Arguments Pending {A}.

(** An asynchronous computation of the plugin: its completion and the
    events it emitted. *)
Definition Host (A : Type) : Type := (Completion A * list Event)%type.

Definition ret {A} (a : A) : Host A := (Return a, []).

Definition bind {A B} (m : Host A) (k : A -> Host B) : Host B :=
  match m with
  | (Return a, l) => let (r, l') := k a in (r, l ++ l')
  | (Throw e, l) => (Throw e, l)
  | (Pending, l) => (Pending, l)
  end.

Definition emit (es : list Event) : Host unit := (Return tt, es).

(** [try { m } catch (error) { h error }] *)
Definition try_catch {A} (m : Host A) (h : Error -> Host A) : Host A :=
  match m with
  | (Throw e, l) => let (r, l') := h e in (r, l ++ l')
  | other => other
  end.

Declare Scope host_scope.
Delimit Scope host_scope with host.
Notation "x <- m ;; k" := (bind m (fun x => k))
  (at level 100, m at next level, right associativity) : host_scope.
Notation "m ;;; k" := (bind m (fun _ => k))
  (at level 100, right associativity) : host_scope.

(** [await Promise.all(xs.map(f))]: every call is started and runs to its
    end, so the events of all of them occur; the result is the list of the
    values, unless a call threw.  The host interleaves the calls: it runs
    each call up to its first [await] before it continues any of them.
    Here the calls run one after the other, in the order of the list.  The
    calls of this plugin work on disjoint subtrees, so their values, the
    names they leave and the events of each call are those of the host; the
    order in which the events of different calls follow one another is not
    the order of the host, and no statement below speaks of it. *)
Definition Promise_all_map {A B} (f : A -> Host B) : list A -> Host (list B) :=
  fix go (xs : list A) : Host (list B) :=
    match xs with
    | [] => (Return [], [])
    | x :: xs' =>
        let (r, l) := f x in
        let (rs, l') := go xs' in
        (match r, rs with
         | Throw e, _ => Throw e
         | _, Throw e => Throw e
         | Return b, Return bs => Return (b :: bs)
         | _, _ => Pending
         end, l ++ l')
    end.

(** How the promise of the naming strategy settles. *)
Inductive Settled : Type :=
| Fulfilled (newName : jsstring)
| Rejected (e : Error).

(** [await p] *)
Definition await (p : Settled) : Host jsstring :=
  match p with
  | Fulfilled s => (Return s, [])
  | Rejected e => (Throw e, [])
  end.

(** Modelled from the spec: [NamingStrategyManager.generateName] of
    [src/naming-strategies/manager.ts], which is not among the sources.  The
    spec gives its contract only: from a node and the options it produces a
    proposed name, it may fail, and it does not mutate the node.  It is a
    function of the node as it is when called (the node's own fields and its
    subtree) and of the options, and its promise settles. *)
Definition NamingStrategy : Type := SceneNode -> AllOptions -> Settled.

(** The assignment [node.name = newName] as the host takes it: [None] when
    the name is assigned, the error when the setter throws.  The host
    decides; it is a parameter of the model. *)
Definition NameAssignment : Type := SceneNode -> jsstring -> option Error.

(** [nodes.slice(start, end)] for [start <= end] *)
Definition slice {A} (start end_ : nat) (xs : list A) : list A :=
  firstn (end_ - start) (skipn start xs).

(* ===================================================================== *)
(** ** main.ts *)
(* ===================================================================== *)

Definition PLUGIN_GENERATED_NAMES : list jsstring :=
  List.map js
    [ "group"; "frame"; "grid"; "row"; "col"; "video"; "image";
      "boolean-union"; "boolean-subtract"; "boolean-intersect";
      "boolean-exclude" ]%string.

(** [(-\[\d+(?:,\s*\d+)?\])] *)
Definition index_suffix_regex : regex :=
  sequence
    [ char 0x2D; char 0x5B; Plus (Class is_digit);
      Opt (sequence [ char 0x2C; Star (Class is_space); Plus (Class is_digit) ]);
      char 0x5D ].

(** [new RegExp(`^(${PLUGIN_GENERATED_NAMES.join("|")})(-\\[\\d+(?:,\\s*\\d+)?\\])?$`)] *)
Definition PLUGIN_NAME_PATTERN : regex :=
  Seq (alternation (List.map literal PLUGIN_GENERATED_NAMES))
      (Opt index_suffix_regex).

Definition batchSize : nat := 50.

Section Main.
Local Open Scope host_scope.

Variable unicodeUpper : N -> list N.
Variable generateName : NamingStrategy.
Variable setName : NameAssignment.

Definition isFigmaOrPluginGeneratedName (node : SceneNode) : Host bool :=
  let name := Node.name node in
  if negb (isValidFigmaNodeType (Node.type node)) then
    emit [console_warn (Node.type node)] ;;;
    ret false
  else if str_eqb (Node.type node) (js "TEXT") then
    ret (Node.autoRename node || str_eqb name (js "text"))
  else if str_eqb (Node.type node) (js "COMPONENT")
          || str_eqb (Node.type node) (js "COMPONENT_SET") then
    ret (test figmaNameWithNumberRegex name)
  else if isFigmaGeneratedName unicodeUpper name then
    ret true
  else
    ret (test PLUGIN_NAME_PATTERN name).

Definition renameLayer (node : SceneNode) (options : AllOptions)
  : Host (bool * SceneNode) :=
  try_catch
    (if Node.locked node && negb (Options.locked options) then
       ret (false, node)
     else if negb (Node.visible node) && negb (Options.hidden options) then
       ret (false, node)
     else if str_eqb (Node.type node) (js "INSTANCE")
             && negb (Options.instance options) then
       ret (false, node)
     else
       custom <- (if negb (Options.renameCustomNames options)
                  then generated <- isFigmaOrPluginGeneratedName node ;;
                       ret (negb generated)
                  else ret false) ;;
       if custom : bool then
         ret (false, node)
       else
         newName <- await (generateName node options) ;;
         if negb (str_eqb (Node.name node) newName) then
           match setName node newName with
           | None => ret (true, Node.set_name node newName)
           | Some error => (Throw error, [])
           end
         else
           ret (false, node))
    (fun error =>
       emit [console_error (Node.id node) error;
             figma_notify (Node.name node)] ;;;
       ret (false, node)).

Fixpoint renameNodeAndChildren (node : SceneNode) (options : AllOptions)
         {struct node} : Host (bool * SceneNode) :=
  match node with
  | mkNode _ _ type _ _ _ children =>
      if str_eqb type (js "INSTANCE") && negb (Options.instance options) then
        ret (false, node)
      else
        renamed <- renameLayer node options ;;
        let (hasRenamed, node') := renamed : bool * SceneNode in
        match children with
        | Some cs =>
            if negb (str_eqb type (js "INSTANCE")) || Options.instance options
            then
              childResults <-
                Promise_all_map
                  (fun child => renameNodeAndChildren child options) cs ;;
              ret (hasRenamed || existsb fst childResults,
                   Node.with_children node' (List.map snd childResults))
            else ret (hasRenamed, node')
        | None => ret (hasRenamed, node')
        end
  end.

(** The loop of [processBatchNodes], from index [i] on.  [fuel] bounds the
    number of iterations; [processBatchNodes] supplies more than the loop
    can use.  The second component lists the roots from [i] on as the loop
    leaves them. *)
Fixpoint processBatchLoop (fuel i : nat) (nodes : list SceneNode)
         (options : AllOptions) (hasRenamed : bool)
  : Host (bool * list SceneNode) :=
  match fuel with
  | O => ret (hasRenamed, skipn i nodes)
  | S fuel' =>
      if (i <? length nodes)%nat then
        let batch := slice i (i + batchSize) nodes in
        results <-
          Promise_all_map (fun node => renameNodeAndChildren node options)
                          batch ;;
        let hasRenamed := hasRenamed || existsb fst results in
        (if (i + batchSize <? length nodes)%nat
         then emit [setTimeout0] else ret tt) ;;;
        later <-
          processBatchLoop fuel' (i + batchSize) nodes options hasRenamed ;;
        let (hasRenamed, rest) := later : bool * list SceneNode in
        ret (hasRenamed, List.map snd results ++ rest)
      else
        ret (hasRenamed, skipn i nodes)
  end.

Definition processBatchNodes (nodes : list SceneNode) (options : AllOptions)
  : Host (bool * list SceneNode) :=
  processBatchLoop (S (length nodes)) 0 nodes options false.

(** [renameLayersInSelection]: the selection of the current page is an
    argument.  The executor of the promise only ever calls [resolve]: were
    [processBatchNodes] to throw, the promise would stay pending. *)
Definition renameLayersInSelection (selection : list SceneNode)
           (options : AllOptions) : Host (bool * list SceneNode) :=
  match processBatchNodes selection options with
  | (Throw _, l) => (Pending, l)
  | other => other
  end.

End Main.


(* ===================================================================== *)
(** ** The name shapes of the specification *)
(* ===================================================================== *)

(** What a computation returns, when it returns. *)
Definition completes {A} (m : Host A) (a : A) : Prop := fst m = Return a.

(** The events a computation emits. *)
Definition events {A} (m : Host A) : list Event := snd m.

(** The names the generic host-name check compares with. *)
Definition HOST_LITERALS : list jsstring :=
  ALL_FIGMA_NODE_TYPES ++ BOOLEAN_OPERATIONS.

(** Equality of two names up to the case of the letters A-Z. *)
Definition ci_equal (a b : jsstring) : Prop :=
  List.map ascii_lower a = List.map ascii_lower b.

(** The name equals, up to case, a node-kind literal or a boolean-operation
    label. *)
Definition ci_host_literal (name : jsstring) : Prop :=
  exists lit, In lit HOST_LITERALS /\ ci_equal name lit.

(** A number [N]: one or more decimal digits. *)
Definition number (d : jsstring) : Prop :=
  d <> [] /\ Forall (fun c => is_digit c = true) d.

(** The shape [<one-or-more-non-space-chars><single-space><one-or-more-digits>].
    A space is a code unit of the class [\s] of the source pattern (the
    blank U+0020, and the other white-space and line-terminator units); a
    non-space is any other code unit. *)
Definition word_number_shape (name : jsstring) : Prop :=
  exists word sp digits,
    name = word ++ sp :: digits /\
    word <> [] /\ Forall (fun c => is_space c = false) word /\
    is_space sp = true /\
    number digits.

(** The index suffix as the specification writes it: [-[N]] or [-[N, N]]. *)
Definition spec_index_suffix (s : jsstring) : Prop :=
  (exists n, number n /\ s = js "-[" ++ n ++ js "]") \/
  (exists n m, number n /\ number m /\
               s = js "-[" ++ n ++ js ", " ++ m ++ js "]").

(** A plugin token, optionally followed by [-[N]] or [-[N, N]]. *)
Definition spec_plugin_name (name : jsstring) : Prop :=
  exists token, In token PLUGIN_GENERATED_NAMES /\
    (name = token \/ exists suffix, spec_index_suffix suffix /\ name = token ++ suffix).

(** The index suffix with any run of white space, also none, after the
    comma: [-[N]] or [-[N,<spaces>N]]. *)
Definition index_suffix (s : jsstring) : Prop :=
  (exists n, number n /\ s = js "-[" ++ n ++ js "]") \/
  (exists n ws m, number n /\ Forall (fun c => is_space c = true) ws /\ number m /\
                  s = js "-[" ++ n ++ js "," ++ ws ++ m ++ js "]").

Definition plugin_name (name : jsstring) : Prop :=
  exists token, In token PLUGIN_GENERATED_NAMES /\
    (name = token \/ exists suffix, index_suffix suffix /\ name = token ++ suffix).

(** The specification's plugin-name shape written as a pattern, to decide
    it on given names: [^(group|...)(-\[\d+(?:, \d+)?\])?$]. *)
Definition spec_index_suffix_regex : regex :=
  sequence
    [ char 0x2D; char 0x5B; Plus (Class is_digit);
      Opt (sequence [ char 0x2C; char 0x20; Plus (Class is_digit) ]);
      char 0x5D ].

Definition spec_plugin_name_regex : regex :=
  Seq (alternation (List.map literal PLUGIN_GENERATED_NAMES))
      (Opt spec_index_suffix_regex).

(** [v] is [token] with at least one letter in upper case. *)
Definition case_variant (v token : jsstring) : Prop :=
  List.map ascii_lower v = token /\ v <> token.

(** The kinds that reach the generic host-name check and the plugin
    pattern: valid, and none of TEXT, COMPONENT, COMPONENT_SET. *)
Definition generic_kind (type : jsstring) : Prop :=
  In type ALL_FIGMA_NODE_TYPES /\
  type <> js "TEXT" /\ type <> js "COMPONENT" /\ type <> js "COMPONENT_SET".

(** The answer of the classifier. *)
Definition generated (unicodeUpper : N -> list N) (node : SceneNode) : bool :=
  match fst (isFigmaOrPluginGeneratedName unicodeUpper node) with
  | Return b => b
  | _ => false
  end.

(** The node is skipped with its subtree: an instance while instances are
    not renamed. *)
Definition skipped_instance (options : AllOptions) (node : SceneNode) : bool :=
  str_eqb (Node.type node) (js "INSTANCE") && negb (Options.instance options).

(** The node passes the gates of [renameLayer], so that the naming strategy
    is asked for a name. *)
Definition reaches_strategy (unicodeUpper : N -> list N) (options : AllOptions)
           (node : SceneNode) : bool :=
  negb (Node.locked node && negb (Options.locked options))
  && negb (negb (Node.visible node) && negb (Options.hidden options))
  && negb (skipped_instance options node)
  && (Options.renameCustomNames options || generated unicodeUpper node).

(** [walk_reaches options root n]: the walk that starts at [root] comes to
    the node [n] of its subtree, no skipped instance being in the way. *)
Inductive walk_reaches (options : AllOptions) : SceneNode -> SceneNode -> Prop :=
| walk_here node :
    skipped_instance options node = false ->
    walk_reaches options node node
| walk_child node cs child n :
    skipped_instance options node = false ->
    Node.children node = Some cs ->
    In child cs ->
    walk_reaches options child n ->
    walk_reaches options node n.

(** The proposal of the strategy for a node does not depend on the names in
    the document. *)
Definition name_blind (generateName : NamingStrategy) : Prop :=
  forall n n' options,
    Node.erase_names n = Node.erase_names n' ->
    generateName n options = generateName n' options.

(** The name a node has after its rename, when it passes the gates: the
    proposal of the strategy, or the name it had when the strategy or the
    assignment fails. *)
Definition name_after (generateName : NamingStrategy) (setName : NameAssignment)
           (options : AllOptions) (node : SceneNode) : jsstring :=
  match generateName node options with
  | Fulfilled newName =>
      match setName node newName with
      | None => newName
      | Some _ => Node.name node
      end
  | Rejected _ => Node.name node
  end.

(** A rename of the node, when it passes the gates, changes its name: the
    strategy proposes another name and the host takes it. *)
Definition would_rename (generateName : NamingStrategy) (setName : NameAssignment)
           (options : AllOptions) (node : SceneNode) : Prop :=
  exists newName,
    generateName node options = Fulfilled newName /\
    newName <> Node.name node /\
    setName node newName = None.

(** The strategy is stable: a node that passes the gates and carries the
    name its rename left it with, whatever the names below it, is not
    renamed again.  [node'] is [node] up to names. *)
Definition stable (unicodeUpper : N -> list N) (generateName : NamingStrategy)
           (setName : NameAssignment) (options : AllOptions) : Prop :=
  forall node node',
    Node.erase_names node = Node.erase_names node' ->
    reaches_strategy unicodeUpper options node = true ->
    reaches_strategy unicodeUpper options node' = true ->
    Node.name node' = name_after generateName setName options node ->
    ~ would_rename generateName setName options node'.

(** The assignment of a name does not depend on the names in the
    document. *)
Definition assignment_blind (setName : NameAssignment) : Prop :=
  forall n n' newName,
    Node.erase_names n = Node.erase_names n' ->
    setName n newName = setName n' newName.

(* ===================================================================== *)
(** ** Documents and strategies used as examples *)
(* ===================================================================== *)

(** A host whose upper-case table leaves every non-ASCII unit alone. *)
Definition plainUpper : N -> list N := fun c => [c].

Definition defaultOptions : AllOptions :=
  mkOptions false false false false false false.

(** An unlocked, visible node without children. *)
Definition leaf (id type name : string) : SceneNode :=
  mkNode (js id) (js name) (js type) false true false None.

(** Options that also rename names written by hand. *)
Definition customNamesOptions : AllOptions :=
  mkOptions false false false false true false.

(** A strategy that proposes the same name for every node. *)
Definition constantStrategy (newName : string) : NamingStrategy :=
  fun _ _ => Fulfilled (js newName).

(** A host that takes every assignment of a name. *)
Definition alwaysAssigns : NameAssignment := fun _ _ => None.

(** A host whose setter throws on every assignment of a name. *)
Definition neverAssigns : NameAssignment := fun _ _ => Some (js "read-only").

(** A strategy that fails on every call. *)
Definition throwingStrategy : NamingStrategy :=
  fun _ _ => Rejected (js "no strategy").

(** A strategy that looks at the current name: "frame" becomes "group" and
    every other name becomes "frame". *)
Definition togglingStrategy : NamingStrategy :=
  fun node _ =>
    if str_eqb (Node.name node) (js "frame")
    then Fulfilled (js "group") else Fulfilled (js "frame").

(** A strategy that proposes the name the node has. *)
Definition currentNameStrategy : NamingStrategy :=
  fun node _ => Fulfilled (Node.name node).

(** A strategy that names a node after its kind, in lower case. *)
Definition kindStrategy : NamingStrategy :=
  fun node _ => Fulfilled (List.map ascii_lower (Node.type node)).

Definition unknownKindNode : SceneNode := leaf "2:1" "HOLOGRAM" "Thing".

Definition tenNodes : list SceneNode :=
  [ leaf "4:1" "FRAME" "Frame 1"; leaf "4:2" "FRAME" "Frame 2";
    leaf "4:3" "RECTANGLE" "Rectangle 3"; leaf "4:4" "GROUP" "Group 4";
    leaf "4:5" "ELLIPSE" "Ellipse 5"; leaf "4:6" "LINE" "Line 6";
    leaf "4:7" "VECTOR" "Vector 7"; leaf "4:8" "STAR" "Star 8";
    leaf "4:9" "POLYGON" "Polygon 9"; leaf "4:10" "FRAME" "Frame 10" ].

(** An instance whose children carry host-generated names. *)
Definition instanceWithChildren : SceneNode :=
  mkNode (js "5:1") (js "Button") (js "INSTANCE") false true false
         (Some [ leaf "5:2" "RECTANGLE" "Rectangle 1"; leaf "5:3" "FRAME" "Frame" ]).




(** A frame named by the host, with two children. *)
Definition frameWithChildren : SceneNode :=
  mkNode (js "3:1") (js "Frame 1") (js "FRAME") false true false
         (Some [ leaf "3:2" "RECTANGLE" "Rectangle 1"; leaf "3:3" "TEXT" "Title" ]).

(** What a walk may do to a node: [r] is its flag and the node as the walk
    leaves it.  Only names differ, and the flag tells whether one does. *)
Definition faithful_result (node : SceneNode) (r : bool * SceneNode) : Prop :=
  Node.erase_names (snd r) = Node.erase_names node /\
  (fst r = false -> snd r = node) /\
  (fst r = true -> snd r <> node).

(** Evaluates a kind side condition on a given type tag. *)
Ltac kind_by_computation :=
  repeat split;
  try (vm_compute; tauto);
  try (let H := fresh in intros H; vm_compute in H; discriminate).


(* ===================================================================== *)
(** ** What a run changed *)
(* ===================================================================== *)

(** The name changes between a subtree and the same subtree later: each
    node, as it was, whose name differs, with its later name; in the order
    of the walk. *)
Fixpoint changes (before after : SceneNode) : list (SceneNode * jsstring) :=
  match before, after with
  | mkNode _ name _ _ _ _ children, mkNode _ name' _ _ _ _ children' =>
      (if str_eqb name name' then [] else [(before, name')])
      ++ match children, children' with
         | Some cs, Some cs' =>
             (fix go (l l' : list SceneNode) : list (SceneNode * jsstring) :=
                match l, l' with
                | c :: l, c' :: l' => changes c c' ++ go l l'
                | _, _ => []
                end) cs cs'
         | _, _ => []
         end
  end.

(** The name changes between two lists of roots. *)
Definition changes_all (before after : list SceneNode)
  : list (SceneNode * jsstring) :=
  concat (zip_with changes before after).

(** The pauses among the events of a run. *)
Definition is_pause (e : Event) : bool :=
  match e with
  | setTimeout0 => true
  | _ => false
  end.

Definition pauses (l : list Event) : nat := length (List.filter is_pause l).

(** Where an event of a run can come from: a pause between two batches, the
    warning of the classifier about an unknown kind (asked only while custom
    names are kept), or the report of a failed rename, the call of the
    strategy or the assignment of the proposed name having failed. *)
Definition accounted_event (generateName : NamingStrategy)
           (setName : NameAssignment) (options : AllOptions)
           (e : Event) : Prop :=
  e = setTimeout0 \/
  (exists type, e = console_warn type /\
                isValidFigmaNodeType type = false /\
                Options.renameCustomNames options = false) \/
  (exists node error,
      (generateName node options = Rejected error \/
       exists newName, generateName node options = Fulfilled newName /\
                       setName node newName = Some error) /\
      (e = console_error (Node.id node) error \/
       e = figma_notify (Node.name node))).

(* ===================================================================== *)
(** ** The RENAME command *)
(* ===================================================================== *)

(** What the handler of the RENAME command shows: the events of the run, and
    its own notifications. *)
Inductive UIEvent : Type :=
| layer_event (e : Event)
| notify_completed               (* renaming completed *)
| notify_nothing_to_rename       (* no layer needs renaming *)
| console_error_run (e : Error)  (* error in the renaming process *)
| notify_run_error.              (* error notification of the run *)

(** The handler afterwards.  [document] is the selection as the handler
    leaves it, where the model determines it: it does not after a run that
    did not return.  [finished] is off while the handler waits for a promise
    that never settles. *)
Record Handled : Type := mkHandled {
  skipInvisibleInstanceChildren : bool;
  finished : bool;
  document : option (list SceneNode);
  shown : list UIEvent
}.

Section Command.
Variable unicodeUpper : N -> list N.
Variable generateName : NamingStrategy.
Variable setName : NameAssignment.
(** [saveSettingsAsync] of the plugin utilities: how its promise ends. *)
Variable saveSettingsAsync : AllOptions -> Completion unit.

(** [on("RENAME", async (receivedOptions) => { try { ... } catch { ... } })].
    The flag of the host is set first; an error of the saving or of the run
    goes to the [catch]. *)
Definition on_RENAME (selection : list SceneNode) (receivedOptions : AllOptions)
  : Handled :=
  let skip := negb (Options.instance receivedOptions
                    && Options.hidden receivedOptions) in
  match saveSettingsAsync receivedOptions with
  | Return _ =>
      match renameLayersInSelection unicodeUpper generateName setName selection
                                    receivedOptions with
      | (Return (hasRenamed, selection'), l) =>
          mkHandled skip true (Some selection')
            (List.map layer_event l
             ++ [if hasRenamed : bool then notify_completed
                 else notify_nothing_to_rename])
      | (Throw error, l) =>
          mkHandled skip true None
            (List.map layer_event l ++ [console_error_run error; notify_run_error])
      | (Pending, l) =>
          mkHandled skip false None (List.map layer_event l)
      end
  | Throw error =>
      mkHandled skip true (Some selection)
                [console_error_run error; notify_run_error]
  | Pending =>
      mkHandled skip false (Some selection) []
  end.

End Command.

(** A selection of 120 roots, for three batches. *)
Definition manyNodes : list SceneNode :=
  List.repeat (leaf "7:1" "FRAME" "Frame 1") 120.

(* ===================================================================== *)
(** * Properties *)
(* ===================================================================== *)

(** ** The matcher decides the language *)

Section RegexFacts.

Lemma lang_Never_inv s : lang Never s -> False.
Proof. inversion 1. Qed.

Lemma lang_Empty_inv s : lang Empty s -> s = [].
Proof. inversion 1; reflexivity. Qed.

Lemma lang_Class_inv p s : lang (Class p) s -> exists c, s = [c] /\ p c = true.
Proof. inversion 1; subst; eauto. Qed.

Lemma lang_Seq_inv r1 r2 s :
  lang (Seq r1 r2) s -> exists s1 s2, s = s1 ++ s2 /\ lang r1 s1 /\ lang r2 s2.
Proof. inversion 1; subst; eauto. Qed.

Lemma lang_Alt_inv r1 r2 s : lang (Alt r1 r2) s -> lang r1 s \/ lang r2 s.
Proof. inversion 1; subst; auto. Qed.

Lemma nullable_lang r : nullable r = true <-> lang r [].
Proof.
  induction r as [| |p|r1 IH1 r2 IH2|r1 IH1 r2 IH2|r IH]; simpl.
  - split; [discriminate | intros H; destruct (lang_Never_inv _ H)].
  - split; [constructor | reflexivity].
  - split; [discriminate|].
    intros H; apply lang_Class_inv in H as (c & Hc & _); discriminate.
  - rewrite andb_true_iff, IH1, IH2. split.
    + intros [H1 H2]. exact (lang_Seq r1 r2 [] [] H1 H2).
    + intros H. apply lang_Seq_inv in H as (s1 & s2 & Hs & H1 & H2).
      symmetry in Hs. apply app_eq_nil in Hs as [-> ->]. auto.
  - rewrite orb_true_iff, IH1, IH2. split.
    + intros [H|H]; [apply lang_AltL | apply lang_AltR]; exact H.
    + apply lang_Alt_inv.
  - split; [constructor | reflexivity].
Qed.

(** A non-empty word of [r*] starts with a non-empty word of [r]. *)
Lemma lang_Star_cons r c s :
  lang (Star r) (c :: s) ->
  exists s1 s2, s = s1 ++ s2 /\ lang r (c :: s1) /\ lang (Star r) s2.
Proof.
  intros H. remember (Star r) as r0 eqn:Hr. remember (c :: s) as w eqn:Hw.
  revert s Hw.
  induction H as [| | | | | |r' s1 s2 H1 _ H2 IH2]; try discriminate.
  injection Hr as ->. intros s Hw.
  destruct s1 as [|c1 s1]; simpl in Hw.
  - apply IH2; auto.
  - injection Hw as -> <-. eauto.
Qed.

Lemma deriv_lang r : forall c s, lang (deriv c r) s <-> lang r (c :: s).
Proof.
  induction r as [| |p|r1 IH1 r2 IH2|r1 IH1 r2 IH2|r IH]; intros c s; simpl.
  - split; intros H; destruct (lang_Never_inv _ H).
  - split; intros H; [destruct (lang_Never_inv _ H)|].
    apply lang_Empty_inv in H; discriminate.
  - destruct (p c) eqn:Hp; split; intros H.
    + apply lang_Empty_inv in H as ->. constructor; exact Hp.
    + apply lang_Class_inv in H as (c' & Hc & _). injection Hc as _ ->.
      constructor.
    + destruct (lang_Never_inv _ H).
    + apply lang_Class_inv in H as (c' & Hc & Hp'). injection Hc as <- _.
      congruence.
  - assert (Hl : lang (Seq (deriv c r1) r2) s -> lang (Seq r1 r2) (c :: s)).
    { intros H. apply lang_Seq_inv in H as (s1 & s2 & -> & H1 & H2).
      apply IH1 in H1. exact (lang_Seq r1 r2 (c :: s1) s2 H1 H2). }
    assert (Hr : lang (Seq r1 r2) (c :: s) ->
                 lang (Seq (deriv c r1) r2) s \/
                 (lang r1 [] /\ lang r2 (c :: s))).
    { intros H. apply lang_Seq_inv in H as (s1 & s2 & Hs & H1 & H2).
      destruct s1 as [|c1 s1]; simpl in Hs.
      - right. subst s2. auto.
      - injection Hs as <- ->. left. constructor; [apply IH1|]; assumption. }
    destruct (nullable r1) eqn:Hn; split; intros H.
    + apply lang_Alt_inv in H as [H|H]; [auto|].
      apply IH2 in H. apply nullable_lang in Hn.
      exact (lang_Seq r1 r2 [] (c :: s) Hn H).
    + destruct (Hr H) as [H'|[_ H']]; [apply lang_AltL; exact H'|].
      apply lang_AltR, IH2, H'.
    + auto.
    + destruct (Hr H) as [H'|[H' _]]; [exact H'|].
      apply nullable_lang in H'. congruence.
  - split; intros H.
    + apply lang_Alt_inv in H as [H|H];
        [apply lang_AltL, IH1 | apply lang_AltR, IH2]; exact H.
    + apply lang_Alt_inv in H as [H|H];
        [apply lang_AltL, IH1 | apply lang_AltR, IH2]; exact H.
  - split; intros H.
    + apply lang_Seq_inv in H as (s1 & s2 & -> & H1 & H2).
      apply IH in H1. exact (lang_StarS r (c :: s1) s2 H1 H2).
    + apply lang_Star_cons in H as (s1 & s2 & -> & H1 & H2).
      constructor; [apply IH|]; assumption.
Qed.

Theorem test_lang r s : test r s = true <-> lang r s.
Proof.
  revert r. induction s as [|c s IH]; intros r; simpl.
  - apply nullable_lang.
  - rewrite IH. apply deriv_lang.
Qed.

Lemma test_false_lang r s : test r s = false <-> ~ lang r s.
Proof.
  rewrite <- test_lang. destruct (test r s); split; congruence.
Qed.

(** *** Languages of the pattern shapes used by the source *)

Lemma lang_Star_class p s :
  lang (Star (Class p)) s <-> Forall (fun c => p c = true) s.
Proof.
  split.
  - induction s as [|c s IH]; intros H; [constructor|].
    apply lang_Star_cons in H as (s1 & s2 & -> & H1 & H2).
    apply lang_Class_inv in H1 as (c' & Hc & Hp).
    injection Hc as <- ->. constructor; [exact Hp | apply IH, H2].
  - induction 1 as [|c s Hp _ IH]; [constructor|].
    exact (lang_StarS (Class p) [c] s (lang_Class p c Hp) IH).
Qed.

Lemma lang_Plus_class p s :
  lang (Plus (Class p)) s <-> s <> [] /\ Forall (fun c => p c = true) s.
Proof.
  unfold Plus. split.
  - intros H. apply lang_Seq_inv in H as (s1 & s2 & -> & H1 & H2).
    apply lang_Class_inv in H1 as (c & -> & Hp).
    apply lang_Star_class in H2. split; [discriminate|].
    constructor; assumption.
  - intros [Hne H]. destruct H as [|c s Hp H]; [congruence|].
    apply (lang_Seq (Class p) (Star (Class p)) [c] s).
    + constructor; exact Hp.
    + apply lang_Star_class, H.
Qed.

Lemma lang_char p s : lang (char p) s <-> s = [p].
Proof.
  unfold char. split.
  - intros H. apply lang_Class_inv in H as (c & -> & Hp).
    apply N.eqb_eq in Hp. congruence.
  - intros ->. constructor. apply N.eqb_refl.
Qed.

Lemma lang_literal w s : lang (literal w) s <-> s = w.
Proof.
  unfold literal, sequence. revert s.
  induction w as [|p w IH]; intros s; simpl.
  - split; [apply lang_Empty_inv | intros ->; constructor].
  - split.
    + intros H. apply lang_Seq_inv in H as (s1 & s2 & -> & H1 & H2).
      apply lang_char in H1 as ->. apply IH in H2 as ->. reflexivity.
    + intros ->. apply (lang_Seq _ _ [p] w); [apply lang_char | apply IH];
        reflexivity.
Qed.

Lemma lang_alternation rs s :
  lang (alternation rs) s <-> exists r, In r rs /\ lang r s.
Proof.
  unfold alternation. induction rs as [|r rs IH]; simpl.
  - split; [intros H; destruct (lang_Never_inv _ H) | intros (r & [] & _)].
  - split.
    + intros H. apply lang_Alt_inv in H as [H|H]; [eauto|].
      apply IH in H as (r' & Hin & H). eauto.
    + intros (r' & [<-|Hin] & H); [apply lang_AltL; exact H|].
      apply lang_AltR, IH. eauto.
Qed.

Lemma lang_Opt r s : lang (Opt r) s <-> lang r s \/ s = [].
Proof.
  unfold Opt. split.
  - intros H. apply lang_Alt_inv in H as [H|H]; [auto|].
    right. apply lang_Empty_inv, H.
  - intros [H| ->]; [apply lang_AltL; exact H | apply lang_AltR; constructor].
Qed.

Lemma lang_Seq_iff r1 r2 s :
  lang (Seq r1 r2) s <-> exists s1 s2, s = s1 ++ s2 /\ lang r1 s1 /\ lang r2 s2.
Proof.
  split; [apply lang_Seq_inv|]. intros (s1 & s2 & -> & H1 & H2).
  constructor; assumption.
Qed.

End RegexFacts.

(** ** Strings, kinds and case folding *)

Lemma str_eqb_true a b : str_eqb a b = true <-> a = b.
Proof. unfold str_eqb. apply bool_decide_eq_true. Qed.

Lemma str_eqb_false a b : str_eqb a b = false <-> a <> b.
Proof. unfold str_eqb. apply bool_decide_eq_false. Qed.

Lemma str_eqb_refl a : str_eqb a a = true.
Proof. apply str_eqb_true. reflexivity. Qed.

Lemma isValidFigmaNodeType_In type :
  isValidFigmaNodeType type = true <-> In type ALL_FIGMA_NODE_TYPES.
Proof.
  unfold isValidFigmaNodeType, validNodeTypeCache.
  rewrite bool_decide_eq_true, elem_of_list_to_set.
  apply list_elem_of_In.
Qed.

Lemma isValidFigmaNodeType_not_In type :
  isValidFigmaNodeType type = false <-> ~ In type ALL_FIGMA_NODE_TYPES.
Proof.
  rewrite <- isValidFigmaNodeType_In.
  destruct (isValidFigmaNodeType type); split; congruence.
Qed.

Lemma ascii_upper_lower_eq c p :
  ascii_upper c = ascii_upper p <-> ascii_lower c = ascii_lower p.
Proof.
  unfold ascii_upper, ascii_lower.
  repeat match goal with
         | |- context [?a <=? ?b] => destruct (N.leb_spec a b)
         end; simpl; lia.
Qed.

Section CaseFolding.
Variable unicodeUpper : N -> list N.

Lemma Canonicalize_ascii c :
  c < 128 -> Canonicalize unicodeUpper c = ascii_upper c.
Proof.
  intros Hc. unfold Canonicalize, toUppercase.
  apply N.ltb_lt in Hc as Hc'. rewrite Hc'.
  destruct (N.leb_spec 128 c); [lia | reflexivity].
Qed.

Lemma Canonicalize_nonascii c :
  128 <= c -> 128 <= Canonicalize unicodeUpper c.
Proof.
  intros Hc. unfold Canonicalize, toUppercase.
  destruct (N.ltb_spec c 128); [lia|].
  destruct (unicodeUpper c) as [|cu [|]]; try assumption.
  destruct (N.leb_spec 128 c); [|lia].
  destruct (N.ltb_spec cu 128); simpl; assumption.
Qed.

Lemma ascii_upper_ascii c : c < 128 -> ascii_upper c < 128.
Proof.
  unfold ascii_upper.
  destruct (N.leb_spec 0x61 c), (N.leb_spec c 0x7A); simpl; lia.
Qed.

Lemma ascii_upper_nonascii c : 128 <= c -> ascii_upper c = c.
Proof.
  unfold ascii_upper.
  destruct (N.leb_spec 0x61 c), (N.leb_spec c 0x7A); simpl; lia.
Qed.

(** Against an ASCII pattern character the [i] flag folds the letters A-Z
    and nothing else, whatever the host's table says. *)
Lemma Canonicalize_eqb_ascii c p :
  p < 128 ->
  (Canonicalize unicodeUpper c =? Canonicalize unicodeUpper p) = true <->
  ascii_lower c = ascii_lower p.
Proof.
  intros Hp. rewrite N.eqb_eq, <- ascii_upper_lower_eq.
  rewrite (Canonicalize_ascii p Hp).
  pose proof (ascii_upper_ascii p Hp) as Hup.
  destruct (N.lt_ge_cases c 128) as [Hc|Hc].
  - rewrite (Canonicalize_ascii c Hc). reflexivity.
  - pose proof (Canonicalize_nonascii c Hc).
    rewrite (ascii_upper_nonascii c Hc). split; lia.
Qed.

Lemma lang_literal_i w s :
  Forall (fun p => p < 128) w ->
  lang (literal_i unicodeUpper w) s <-> ci_equal s w.
Proof.
  unfold literal_i, sequence, ci_equal. intros Hw. revert s.
  induction Hw as [|p w Hp Hw IH]; intros s; simpl.
  - split.
    + intros H. apply lang_Empty_inv in H as ->. reflexivity.
    + intros H. destruct s; [constructor | discriminate].
  - split.
    + intros H. apply lang_Seq_inv in H as (s1 & s2 & -> & H1 & H2).
      apply lang_Class_inv in H1 as (c & -> & Hc).
      apply Canonicalize_eqb_ascii in Hc; [|exact Hp].
      apply IH in H2. simpl. congruence.
    + intros H. destruct s as [|c s]; [discriminate|].
      simpl in H. injection H as Hc Hs.
      apply (lang_Seq _ _ [c] s).
      * constructor. apply Canonicalize_eqb_ascii; assumption.
      * apply IH, Hs.
Qed.

Lemma HOST_LITERALS_ascii :
  Forall (Forall (fun p => p < 128)) HOST_LITERALS.
Proof.
  assert (H : forallb (forallb (fun p => p <? 128)) HOST_LITERALS = true)
    by (vm_compute; reflexivity).
  rewrite forallb_forall in H. apply List.Forall_forall. intros lit Hlit.
  specialize (H lit Hlit). rewrite forallb_forall in H.
  apply List.Forall_forall. intros c Hc. apply N.ltb_lt, H, Hc.
Qed.

(** The first pattern of [isFigmaGeneratedName]. *)
Lemma figmaNameRegex_spec name :
  test (figmaNameRegex unicodeUpper) name = true <-> ci_host_literal name.
Proof.
  rewrite test_lang. unfold figmaNameRegex, ci_host_literal.
  fold HOST_LITERALS. rewrite lang_alternation. split.
  - intros (r & Hin & Hl). apply in_map_iff in Hin as (lit & <- & Hin).
    exists lit. split; [exact Hin|].
    apply lang_literal_i in Hl; [exact Hl|].
    pose proof HOST_LITERALS_ascii as Ha.
    rewrite List.Forall_forall in Ha. apply Ha, Hin.
  - intros (lit & Hin & Hci). exists (literal_i unicodeUpper lit). split.
    + apply in_map, Hin.
    + apply lang_literal_i; [|exact Hci].
      pose proof HOST_LITERALS_ascii as Ha.
      rewrite List.Forall_forall in Ha. apply Ha, Hin.
Qed.

End CaseFolding.

(** The second pattern of [isFigmaGeneratedName], [/^\S+\s\d+$/]. *)
Lemma figmaNameWithNumberRegex_spec name :
  test figmaNameWithNumberRegex name = true <-> word_number_shape name.
Proof.
  rewrite test_lang. unfold figmaNameWithNumberRegex, word_number_shape, number.
  split.
  - intros H. apply lang_Seq_inv in H as (w & rest & -> & Hw & H).
    apply lang_Seq_inv in H as (sp & d & -> & Hsp & Hd).
    apply lang_Class_inv in Hsp as (c & -> & Hc).
    apply lang_Plus_class in Hw as [Hw1 Hw2].
    apply lang_Plus_class in Hd as [Hd1 Hd2].
    exists w, c, d. repeat split; try assumption.
    eapply Forall_impl; [exact Hw2|]. simpl. intros x Hx.
    unfold is_nonspace in Hx. apply negb_true_iff, Hx.
  - intros (w & c & d & -> & Hw1 & Hw2 & Hc & Hd1 & Hd2).
    constructor.
    + apply lang_Plus_class. split; [exact Hw1|].
      eapply Forall_impl; [exact Hw2|]. simpl. intros x Hx.
      unfold is_nonspace. rewrite Hx. reflexivity.
    + apply (lang_Seq _ _ [c] d).
      * constructor; exact Hc.
      * apply lang_Plus_class. split; assumption.
Qed.

Lemma isFigmaGeneratedName_spec unicodeUpper name :
  isFigmaGeneratedName unicodeUpper name = true <->
  ci_host_literal name \/ word_number_shape name.
Proof.
  unfold isFigmaGeneratedName.
  rewrite orb_true_iff, figmaNameRegex_spec, figmaNameWithNumberRegex_spec.
  reflexivity.
Qed.

(** ** The plugin pattern *)

Lemma lang_index_suffix_regex s :
  lang index_suffix_regex s <-> index_suffix s.
Proof.
  unfold index_suffix_regex, index_suffix, sequence, number.
  change (js "-[") with [0x2D; 0x5B]. change (js "]") with [0x5D].
  change (js ",") with [0x2C]. cbn [List.fold_right]. split.
  - intros H.
    apply lang_Seq_inv in H as (a & s1 & -> & Ha & H). apply lang_char in Ha as ->.
    apply lang_Seq_inv in H as (b & s2 & -> & Hb & H). apply lang_char in Hb as ->.
    apply lang_Seq_inv in H as (n & s3 & -> & Hn & H).
    apply lang_Plus_class in Hn.
    apply lang_Seq_inv in H as (o & s4 & -> & Ho & H).
    apply lang_Seq_inv in H as (e & s5 & -> & He & H). apply lang_char in He as ->.
    apply lang_Empty_inv in H as ->.
    apply lang_Opt in Ho as [Ho| ->].
    + right.
      apply lang_Seq_inv in Ho as (c & o1 & -> & Hc & Ho). apply lang_char in Hc as ->.
      apply lang_Seq_inv in Ho as (ws & o2 & -> & Hws & Ho).
      apply lang_Star_class in Hws.
      apply lang_Seq_inv in Ho as (m & o3 & -> & Hm & Ho).
      apply lang_Plus_class in Hm. apply lang_Empty_inv in Ho as ->.
      exists n, ws, m. repeat split; try tauto.
      rewrite ?app_nil_r, <- ?app_assoc. reflexivity.
    + left. exists n. split; [exact Hn | reflexivity].
  - assert (Hend : lang (Seq (char 0x5D) Empty) [0x5D]).
    { apply (lang_Seq _ _ [0x5D] []); [apply lang_char; reflexivity | constructor]. }
    intros [(n & Hn & ->) | (n & ws & m & Hn & Hws & Hm & ->)].
    + apply (lang_Seq _ _ [0x2D]); [apply lang_char; reflexivity|].
      apply (lang_Seq _ _ [0x5B]); [apply lang_char; reflexivity|].
      apply (lang_Seq _ _ n); [apply lang_Plus_class, Hn|].
      apply (lang_Seq _ _ []); [apply lang_Opt; right; reflexivity | exact Hend].
    + apply (lang_Seq _ _ [0x2D]); [apply lang_char; reflexivity|].
      apply (lang_Seq _ _ [0x5B]); [apply lang_char; reflexivity|].
      apply (lang_Seq _ _ n); [apply lang_Plus_class, Hn|].
      replace ([0x2C] ++ ws ++ m ++ [0x5D])
        with (([0x2C] ++ ws ++ m ++ []) ++ [0x5D])
        by (rewrite app_nil_r, <- ?app_assoc; reflexivity).
      apply (lang_Seq _ _ ([0x2C] ++ ws ++ m ++ [])); [|exact Hend].
      apply lang_Opt. left.
      apply (lang_Seq _ _ [0x2C]); [apply lang_char; reflexivity|].
      apply (lang_Seq _ _ ws); [apply lang_Star_class, Hws|].
      apply (lang_Seq _ _ m); [apply lang_Plus_class, Hm | constructor].
Qed.

Lemma PLUGIN_NAME_PATTERN_spec name :
  test PLUGIN_NAME_PATTERN name = true <-> plugin_name name.
Proof.
  rewrite test_lang. unfold PLUGIN_NAME_PATTERN, plugin_name.
  rewrite lang_Seq_iff. split.
  - intros (t & s & -> & Ht & Hs).
    apply lang_alternation in Ht as (r & Hin & Hl).
    apply in_map_iff in Hin as (token & <- & Hin).
    apply lang_literal in Hl as ->.
    exists token. split; [exact Hin|].
    apply lang_Opt in Hs as [Hs| ->].
    + right. exists s. split; [apply lang_index_suffix_regex, Hs | reflexivity].
    + left. apply app_nil_r.
  - intros (token & Hin & H).
    assert (Ht : lang (alternation (List.map literal PLUGIN_GENERATED_NAMES)) token).
    { apply lang_alternation. exists (literal token).
      split; [apply in_map, Hin | apply lang_literal; reflexivity]. }
    destruct H as [-> | (s & Hs & ->)].
    + exists token, []. repeat split; [symmetry; apply app_nil_r | exact Ht|].
      apply lang_Opt. right. reflexivity.
    + exists token, s. repeat split; [exact Ht|].
      apply lang_Opt. left. apply lang_index_suffix_regex, Hs.
Qed.

(** The suffix of the specification is one of the suffixes of the pattern. *)
Lemma spec_index_suffix_index_suffix s : spec_index_suffix s -> index_suffix s.
Proof.
  intros [H | (n & m & Hn & Hm & ->)]; [left; exact H|].
  right. exists n, [0x20], m.
  split; [exact Hn|]. split; [repeat constructor|]. split; [exact Hm|].
  reflexivity.
Qed.

Lemma spec_plugin_name_plugin_name name : spec_plugin_name name -> plugin_name name.
Proof.
  intros (token & Hin & H). exists token. split; [exact Hin|].
  destruct H as [H | (s & Hs & ->)]; [left; exact H|].
  right. exists s. split; [apply spec_index_suffix_index_suffix, Hs | reflexivity].
Qed.

(** ** The branches of the classifier *)

Section Classifier.
Variable unicodeUpper : N -> list N.

Lemma classifier_invalid node :
  isValidFigmaNodeType (Node.type node) = false ->
  isFigmaOrPluginGeneratedName unicodeUpper node =
  (Return false, [console_warn (Node.type node)]).
Proof.
  intros H. unfold isFigmaOrPluginGeneratedName. rewrite H. reflexivity.
Qed.

Lemma classifier_text node :
  Node.type node = js "TEXT" ->
  isFigmaOrPluginGeneratedName unicodeUpper node =
  ret (Node.autoRename node || str_eqb (Node.name node) (js "text")).
Proof.
  intros H. unfold isFigmaOrPluginGeneratedName. rewrite H.
  replace (isValidFigmaNodeType (js "TEXT")) with true by (vm_compute; reflexivity).
  rewrite str_eqb_refl. reflexivity.
Qed.

Lemma classifier_component node :
  Node.type node = js "COMPONENT" \/ Node.type node = js "COMPONENT_SET" ->
  isFigmaOrPluginGeneratedName unicodeUpper node =
  ret (test figmaNameWithNumberRegex (Node.name node)).
Proof.
  intros [H|H]; unfold isFigmaOrPluginGeneratedName; rewrite H.
  - replace (isValidFigmaNodeType (js "COMPONENT")) with true
      by (vm_compute; reflexivity).
    replace (str_eqb (js "COMPONENT") (js "TEXT")) with false
      by (vm_compute; reflexivity).
    rewrite str_eqb_refl. reflexivity.
  - replace (isValidFigmaNodeType (js "COMPONENT_SET")) with true
      by (vm_compute; reflexivity).
    replace (str_eqb (js "COMPONENT_SET") (js "TEXT")) with false
      by (vm_compute; reflexivity).
    rewrite str_eqb_refl, orb_true_r. reflexivity.
Qed.

Lemma classifier_generic node :
  generic_kind (Node.type node) ->
  isFigmaOrPluginGeneratedName unicodeUpper node =
  ret (isFigmaGeneratedName unicodeUpper (Node.name node)
       || test PLUGIN_NAME_PATTERN (Node.name node)).
Proof.
  intros (Hv & Ht & Hc & Hs). unfold isFigmaOrPluginGeneratedName.
  apply isValidFigmaNodeType_In in Hv. rewrite Hv. simpl negb. cbv iota.
  apply str_eqb_false in Ht, Hc, Hs. rewrite Ht, Hc, Hs. simpl orb. cbv iota.
  destruct (isFigmaGeneratedName unicodeUpper (Node.name node)); reflexivity.
Qed.

(** The classifier always returns, and warns only about an unknown kind. *)
Lemma classifier_returns node :
  exists b, isFigmaOrPluginGeneratedName unicodeUpper node =
            (Return b, if isValidFigmaNodeType (Node.type node)
                       then [] else [console_warn (Node.type node)]).
Proof.
  unfold isFigmaOrPluginGeneratedName.
  destruct (isValidFigmaNodeType (Node.type node)); simpl; [|eauto].
  repeat match goal with
         | |- context [if ?c then _ else _] => destruct c
         end; unfold ret; eauto.
Qed.

End Classifier.

Lemma kind_cases type :
  isValidFigmaNodeType type = false \/
  type = js "TEXT" \/
  (type = js "COMPONENT" \/ type = js "COMPONENT_SET") \/
  generic_kind type.
Proof.
  unfold generic_kind. rewrite <- isValidFigmaNodeType_In.
  destruct (isValidFigmaNodeType type); [|auto].
  destruct (decide (type = js "TEXT")); [auto|].
  destruct (decide (type = js "COMPONENT")); [auto|].
  destruct (decide (type = js "COMPONENT_SET")); auto 10.
Qed.

(** ** Names that carry an index suffix *)

Lemma split_at_first_unique (x : N) l1 l2 r1 r2 :
  ~ In x l1 -> ~ In x l2 -> l1 ++ x :: r1 = l2 ++ x :: r2 -> l1 = l2.
Proof.
  revert l2. induction l1 as [|a l1 IH]; intros [|b l2] H1 H2 Heq; simpl in *.
  - reflexivity.
  - injection Heq as -> _. tauto.
  - injection Heq as -> _. tauto.
  - injection Heq as -> Heq. f_equal. apply IH; tauto.
Qed.

Lemma digits_no_bracket d :
  Forall (fun c => is_digit c = true) d -> ~ In 0x5B d.
Proof.
  intros H Hin. rewrite List.Forall_forall in H.
  specialize (H _ Hin). vm_compute in H. discriminate.
Qed.

Lemma spaces_no_bracket ws :
  Forall (fun c => is_space c = true) ws -> ~ In 0x5B ws.
Proof.
  intros H Hin. rewrite List.Forall_forall in H.
  specialize (H _ Hin). vm_compute in H. discriminate.
Qed.

(** A suffix is [-[], a body without a further bracket, and []]. *)
Lemma index_suffix_body s :
  index_suffix s ->
  exists body, s = [0x2D; 0x5B] ++ body ++ [0x5D] /\ ~ In 0x5B body.
Proof.
  unfold index_suffix, number.
  change (js "-[") with [0x2D; 0x5B]. change (js "]") with [0x5D].
  change (js ",") with [0x2C].
  intros [(n & [_ Hn] & ->) | (n & ws & m & [_ Hn] & Hws & [_ Hm] & ->)].
  - exists n. split; [reflexivity | apply digits_no_bracket, Hn].
  - exists (n ++ [0x2C] ++ ws ++ m). split.
    + rewrite <- ?app_assoc. reflexivity.
    + rewrite !in_app_iff. intros [H|[H|[H|H]]].
      * exact (digits_no_bracket _ Hn H).
      * destruct H as [H|[]]. discriminate.
      * exact (spaces_no_bracket _ Hws H).
      * exact (digits_no_bracket _ Hm H).
Qed.

Lemma PLUGIN_GENERATED_NAMES_lower token :
  In token PLUGIN_GENERATED_NAMES ->
  List.map ascii_lower token = token /\ ~ In 0x5B token.
Proof.
  assert (H : forallb (fun t => bool_decide (List.map ascii_lower t = t)
                                && negb (existsb (N.eqb 0x5B) t))
                      PLUGIN_GENERATED_NAMES = true)
    by (vm_compute; reflexivity).
  rewrite forallb_forall in H. intros Hin. specialize (H _ Hin).
  apply andb_true_iff in H as [H1 H2]. apply bool_decide_eq_true in H1.
  split; [exact H1|]. intros Hb. apply negb_true_iff in H2.
  assert (existsb (N.eqb 0x5B) token = true); [|congruence].
  apply existsb_exists. exists 0x5B. split; [exact Hb | reflexivity].
Qed.

Lemma HOST_LITERALS_no_bracket lit :
  In lit HOST_LITERALS -> ~ In 0x5B (List.map ascii_lower lit).
Proof.
  assert (H : forallb (fun t => negb (existsb (N.eqb 0x5B) (List.map ascii_lower t)))
                      HOST_LITERALS = true)
    by (vm_compute; reflexivity).
  rewrite forallb_forall in H. intros Hin Hb. specialize (H _ Hin).
  apply negb_true_iff in H.
  assert (existsb (N.eqb 0x5B) (List.map ascii_lower lit) = true); [|congruence].
  apply existsb_exists. exists 0x5B. split; [exact Hb | reflexivity].
Qed.

Lemma ascii_lower_bracket c : ascii_lower c = 0x5B <-> c = 0x5B.
Proof.
  unfold ascii_lower.
  destruct (N.leb_spec 0x41 c), (N.leb_spec c 0x5A); simpl; lia.
Qed.

Lemma In_bracket_map_lower l :
  In 0x5B (List.map ascii_lower l) <-> In 0x5B l.
Proof.
  rewrite in_map_iff. split.
  - intros (c & Hc & Hin). apply ascii_lower_bracket in Hc as ->. exact Hin.
  - intros Hin. exists 0x5B. split; [reflexivity | exact Hin].
Qed.

(** A name with a bracket is no host literal, whatever its case. *)
Lemma bracket_not_ci_host_literal name :
  In 0x5B name -> ~ ci_host_literal name.
Proof.
  intros Hin (lit & Hlit & Hci). unfold ci_equal in Hci.
  apply (HOST_LITERALS_no_bracket lit Hlit).
  rewrite <- Hci. apply In_bracket_map_lower, Hin.
Qed.

(** A name that ends with a closing bracket has not the word+number shape. *)
Lemma closing_bracket_not_word_number pre :
  ~ word_number_shape (pre ++ [0x5D]).
Proof.
  intros (w & sp & d & Heq & _ & _ & _ & Hne & Hd).
  destruct (exists_last Hne) as (d' & x & ->).
  replace (w ++ sp :: d' ++ [x]) with ((w ++ sp :: d') ++ [x]) in Heq
    by (rewrite <- app_assoc; reflexivity).
  apply app_inj_tail in Heq as [_ <-].
  apply Forall_app in Hd as [_ Hx]. inversion Hx as [|? ? Hdig _]; subst.
  vm_compute in Hdig. discriminate.
Qed.

(** No case variant of a token, followed by an index suffix, matches the
    plugin pattern. *)
Lemma case_variant_not_plugin_name token variant suffix :
  In token PLUGIN_GENERATED_NAMES ->
  case_variant variant token ->
  index_suffix suffix ->
  ~ plugin_name (variant ++ suffix).
Proof.
  intros Htok [Hlow Hne] Hsuf (token' & Htok' & H).
  destruct (PLUGIN_GENERATED_NAMES_lower _ Htok) as [_ Hnb].
  destruct (PLUGIN_GENERATED_NAMES_lower _ Htok') as [Hlow' Hnb'].
  assert (Hvb : ~ In 0x5B variant).
  { rewrite <- In_bracket_map_lower, Hlow. exact Hnb. }
  apply index_suffix_body in Hsuf as (body & -> & Hbody).
  destruct H as [H | (suffix' & Hsuf' & H)].
  - apply Hnb'. rewrite <- H. rewrite in_app_iff. right. simpl. auto.
  - apply index_suffix_body in Hsuf' as (body' & -> & Hbody').
    assert (Heq : variant ++ [0x2D] = token' ++ [0x2D]).
    { apply (split_at_first_unique 0x5B _ _ (body ++ [0x5D]) (body' ++ [0x5D])).
      - rewrite in_app_iff. intros [?|[?|[]]]; [tauto | discriminate].
      - rewrite in_app_iff. intros [?|[?|[]]]; [tauto | discriminate].
      - rewrite <- !app_assoc. exact H. }
    apply app_inj_tail in Heq as [Heq _]. subst token'.
    apply Hne. congruence.
Qed.

Lemma spec_plugin_name_regex_complete name :
  spec_plugin_name name -> test spec_plugin_name_regex name = true.
Proof.
  intros (token & Hin & H). apply test_lang. unfold spec_plugin_name_regex.
  assert (Ht : lang (alternation (List.map literal PLUGIN_GENERATED_NAMES)) token).
  { apply lang_alternation. exists (literal token).
    split; [apply in_map, Hin | apply lang_literal; reflexivity]. }
  destruct H as [-> | (s & Hs & ->)].
  { rewrite <- (app_nil_r token). constructor; [exact Ht|].
    apply lang_Opt. right. reflexivity. }
  constructor; [exact Ht|]. apply lang_Opt. left.
  assert (Hend : lang (Seq (char 0x5D) Empty) [0x5D]).
  { apply (lang_Seq _ _ [0x5D] []); [apply lang_char; reflexivity | constructor]. }
  unfold spec_index_suffix, number in Hs. unfold spec_index_suffix_regex, sequence.
  cbn [List.fold_right].
  change (js "-[") with [0x2D; 0x5B] in Hs. change (js "]") with [0x5D] in Hs.
  change (js ", ") with [0x2C; 0x20] in Hs.
  destruct Hs as [(n & Hn & ->) | (n & m & Hn & Hm & ->)].
  - apply (lang_Seq _ _ [0x2D]); [apply lang_char; reflexivity|].
    apply (lang_Seq _ _ [0x5B]); [apply lang_char; reflexivity|].
    apply (lang_Seq _ _ n); [apply lang_Plus_class, Hn|].
    apply (lang_Seq _ _ []); [apply lang_Opt; right; reflexivity | exact Hend].
  - apply (lang_Seq _ _ [0x2D]); [apply lang_char; reflexivity|].
    apply (lang_Seq _ _ [0x5B]); [apply lang_char; reflexivity|].
    apply (lang_Seq _ _ n); [apply lang_Plus_class, Hn|].
    replace ([0x2C; 0x20] ++ m ++ [0x5D])
      with (([0x2C] ++ [0x20] ++ m ++ []) ++ [0x5D])
      by (rewrite app_nil_r, <- ?app_assoc; reflexivity).
    apply (lang_Seq _ _ ([0x2C] ++ [0x20] ++ m ++ [])); [|exact Hend].
    apply lang_Opt. left.
    apply (lang_Seq _ _ [0x2C]); [apply lang_char; reflexivity|].
    apply (lang_Seq _ _ [0x20]); [apply lang_char; reflexivity|].
    apply (lang_Seq _ _ m); [apply lang_Plus_class, Hm | constructor].
Qed.

(* ===================================================================== *)
(** * The classifier *)
(* ===================================================================== *)

(** C1.  For a node of a valid kind other than TEXT, COMPONENT and
    COMPONENT_SET the classifier answers true when the name equals, up to
    case, one of the 27 kind literals or one of the 4 boolean-operation
    labels, or when it has the shape word, space, number.  "Frame", "FRAME",
    "frame" and "Rectangle 12" are generated; "My Button" and "Icon" are
    not. *)
Theorem C1_generic_host_names unicodeUpper node :
  generic_kind (Node.type node) ->
  (length ALL_FIGMA_NODE_TYPES = 27%nat /\ length BOOLEAN_OPERATIONS = 4%nat) /\
  (ci_host_literal (Node.name node) \/ word_number_shape (Node.name node) ->
   isFigmaOrPluginGeneratedName unicodeUpper node = ret true) /\
  (In (Node.name node)
      [js "Frame"; js "FRAME"; js "frame"; js "Rectangle 12"] ->
   isFigmaOrPluginGeneratedName unicodeUpper node = ret true) /\
  (In (Node.name node) [js "My Button"; js "Icon"] ->
   isFigmaOrPluginGeneratedName unicodeUpper node = ret false).
Proof.
  intros Hk. rewrite (classifier_generic unicodeUpper node Hk).
  split; [split; reflexivity|]. split; [|split].
  - intros H. apply (proj2 (isFigmaGeneratedName_spec unicodeUpper _)) in H.
    rewrite H. reflexivity.
  - intros [<-|[<-|[<-|[<-|[]]]]]; vm_compute; reflexivity.
  - intros [<-|[<-|[]]]; vm_compute; reflexivity.
Qed.

Lemma C1_generic_host_names_witness :
  isFigmaOrPluginGeneratedName plainUpper (leaf "1:2" "RECTANGLE" "Rectangle 12")
  = ret true /\
  isFigmaOrPluginGeneratedName plainUpper (leaf "1:3" "FRAME" "Icon") = ret false.
Proof.
  split.
  - assert (Hk : generic_kind (Node.type (leaf "1:2" "RECTANGLE" "Rectangle 12")))
      by kind_by_computation.
    destruct (C1_generic_host_names plainUpper _ Hk) as (_ & Hshape & _ & _).
    apply Hshape. right. exists (js "Rectangle"), 0x20, (js "12").
    split; [reflexivity|]. split; [discriminate|].
    split; [repeat constructor|]. split; [reflexivity|].
    split; [discriminate | repeat constructor].
  - assert (Hk : generic_kind (Node.type (leaf "1:3" "FRAME" "Icon")))
      by kind_by_computation.
    destruct (C1_generic_host_names plainUpper _ Hk) as (_ & _ & _ & Hcustom).
    apply Hcustom. right. left. reflexivity.
Defined.

(** C7.  For a TEXT node (a valid kind) the classifier answers true exactly
    when the node's autoRename flag is set or its name is exactly "text"; a
    TEXT node named "Headline" with autoRename off is not generated. *)
Theorem C7_text_nodes unicodeUpper node :
  Node.type node = js "TEXT" ->
  In (Node.type node) ALL_FIGMA_NODE_TYPES /\
  (exists b, isFigmaOrPluginGeneratedName unicodeUpper node = ret b /\
             (b = true <->
              Node.autoRename node = true \/ Node.name node = js "text")) /\
  (Node.name node = js "Headline" -> Node.autoRename node = false ->
   isFigmaOrPluginGeneratedName unicodeUpper node = ret false).
Proof.
  intros Ht. rewrite (classifier_text unicodeUpper node Ht). split; [|split].
  - rewrite Ht. vm_compute. tauto.
  - eexists. split; [reflexivity|].
    rewrite orb_true_iff, str_eqb_true. reflexivity.
  - intros -> ->. reflexivity.
Qed.

Lemma C7_text_nodes_witness :
  isFigmaOrPluginGeneratedName plainUpper
    (mkNode (js "1:4") (js "Headline") (js "TEXT") false true false None)
  = ret false.
Proof.
  destruct (C7_text_nodes plainUpper
              (mkNode (js "1:4") (js "Headline") (js "TEXT") false true false None)
              eq_refl) as (_ & _ & Hheadline).
  apply Hheadline; reflexivity.
Defined.

(** C8.  For a COMPONENT or COMPONENT_SET node (valid kinds) the classifier
    answers true exactly when the name has the shape word, space, number, as
    "Button 3" has.  Nothing else is consulted: a kind literal such as
    "Frame" and a plugin name such as "row-[3]" are not generated on these
    two kinds. *)
Theorem C8_component_nodes unicodeUpper node :
  Node.type node = js "COMPONENT" \/ Node.type node = js "COMPONENT_SET" ->
  In (Node.type node) ALL_FIGMA_NODE_TYPES /\
  (exists b, isFigmaOrPluginGeneratedName unicodeUpper node = ret b /\
             (b = true <-> word_number_shape (Node.name node))) /\
  (Node.name node = js "Button 3" ->
   isFigmaOrPluginGeneratedName unicodeUpper node = ret true) /\
  (ci_host_literal (Node.name node) \/ plugin_name (Node.name node) ->
   ~ word_number_shape (Node.name node) ->
   isFigmaOrPluginGeneratedName unicodeUpper node = ret false) /\
  (In (Node.name node) [js "Frame"; js "row-[3]"] ->
   isFigmaOrPluginGeneratedName unicodeUpper node = ret false).
Proof.
  intros Ht. rewrite (classifier_component unicodeUpper node Ht).
  split; [|split; [|split; [|split]]].
  - destruct Ht as [-> | ->]; vm_compute; tauto.
  - eexists. split; [reflexivity|]. apply figmaNameWithNumberRegex_spec.
  - intros ->. reflexivity.
  - intros _ Hn. f_equal. f_equal.
    rewrite <- figmaNameWithNumberRegex_spec in Hn.
    destruct (test figmaNameWithNumberRegex (Node.name node)); congruence.
  - intros [<-|[<-|[]]]; reflexivity.
Qed.

Lemma C8_component_nodes_witness :
  isFigmaOrPluginGeneratedName plainUpper (leaf "1:5" "COMPONENT" "Button 3")
  = ret true /\
  isFigmaOrPluginGeneratedName plainUpper (leaf "1:6" "COMPONENT_SET" "Frame")
  = ret false.
Proof.
  split.
  - destruct (C8_component_nodes plainUpper (leaf "1:5" "COMPONENT" "Button 3")
                (or_introl eq_refl)) as (_ & _ & Hbutton & _).
    apply Hbutton. reflexivity.
  - destruct (C8_component_nodes plainUpper (leaf "1:6" "COMPONENT_SET" "Frame")
                (or_intror eq_refl)) as (_ & _ & _ & _ & Hframe).
    apply Hframe. left. reflexivity.
Defined.

(** C9, as the specification states it, fails: on a FRAME node the name
    "row-[2,5]" fails the generic host-name check and is classified as
    generated, yet it is not a token followed by [-[N]] or [-[N, N]]. *)
Lemma C9_plugin_names_counterexample :
  generic_kind (Node.type (leaf "1:9" "FRAME" "row-[2,5]")) /\
  isFigmaGeneratedName plainUpper (Node.name (leaf "1:9" "FRAME" "row-[2,5]"))
  = false /\
  isFigmaOrPluginGeneratedName plainUpper (leaf "1:9" "FRAME" "row-[2,5]")
  = ret true /\
  ~ spec_plugin_name (Node.name (leaf "1:9" "FRAME" "row-[2,5]")).
Proof.
  split; [kind_by_computation|]. split; [vm_compute; reflexivity|].
  split; [vm_compute; reflexivity|].
  intros H. apply spec_plugin_name_regex_complete in H.
  vm_compute in H. discriminate.
Qed.

(** C9, amended.  For a node of a valid kind other than TEXT, COMPONENT and
    COMPONENT_SET whose name fails the generic host-name check, the
    classifier answers true exactly when the name is one of the plugin
    tokens, optionally followed by [-[N]] or by [-[N,] any run of white
    space, also none, and [N]].  A token followed by [-[N]] or [-[N, N]] is
    such a name; "row-[3]", "col-[2, 5]" and "boolean-union" are generated,
    "row-3" is not. *)
Theorem C9_plugin_names unicodeUpper node :
  generic_kind (Node.type node) ->
  isFigmaGeneratedName unicodeUpper (Node.name node) = false ->
  (exists b, isFigmaOrPluginGeneratedName unicodeUpper node = ret b /\
             (b = true <-> plugin_name (Node.name node))) /\
  (spec_plugin_name (Node.name node) ->
   isFigmaOrPluginGeneratedName unicodeUpper node = ret true) /\
  (In (Node.name node) [js "row-[3]"; js "col-[2, 5]"; js "boolean-union"] ->
   isFigmaOrPluginGeneratedName unicodeUpper node = ret true) /\
  (Node.name node = js "row-3" ->
   isFigmaOrPluginGeneratedName unicodeUpper node = ret false).
Proof.
  intros Hk Hhost. rewrite (classifier_generic unicodeUpper node Hk), Hhost.
  simpl orb. split; [|split; [|split]].
  - eexists. split; [reflexivity|]. apply PLUGIN_NAME_PATTERN_spec.
  - intros H. apply spec_plugin_name_plugin_name in H.
    apply (proj2 (PLUGIN_NAME_PATTERN_spec _)) in H. rewrite H. reflexivity.
  - intros [<-|[<-|[<-|[]]]]; reflexivity.
  - intros ->. reflexivity.
Qed.

Lemma C9_plugin_names_witness :
  isFigmaOrPluginGeneratedName plainUpper (leaf "1:10" "FRAME" "col-[2, 5]")
  = ret true /\
  isFigmaOrPluginGeneratedName plainUpper (leaf "1:11" "GROUP" "row-3")
  = ret false.
Proof.
  split.
  - assert (Hk : generic_kind (Node.type (leaf "1:10" "FRAME" "col-[2, 5]")))
      by kind_by_computation.
    assert (Hh : isFigmaGeneratedName plainUpper
                   (Node.name (leaf "1:10" "FRAME" "col-[2, 5]")) = false)
      by (vm_compute; reflexivity).
    destruct (C9_plugin_names plainUpper _ Hk Hh) as (_ & _ & Hin & _).
    apply Hin. right. left. reflexivity.
  - assert (Hk : generic_kind (Node.type (leaf "1:11" "GROUP" "row-3")))
      by kind_by_computation.
    assert (Hh : isFigmaGeneratedName plainUpper
                   (Node.name (leaf "1:11" "GROUP" "row-3")) = false)
      by (vm_compute; reflexivity).
    destruct (C9_plugin_names plainUpper _ Hk Hh) as (_ & _ & _ & Hrow).
    apply Hrow. reflexivity.
Defined.

(** C10, as stated for every node, fails on a TEXT node with autoRename
    set: the classifier answers true without looking at the name, so
    "Row-[3]" is generated there. *)
Lemma C10_plugin_tokens_case_sensitive_counterexample :
  In (js "row") PLUGIN_GENERATED_NAMES /\
  case_variant (js "Row") (js "row") /\
  index_suffix (js "-[3]") /\
  Node.name (mkNode (js "1:16") (js "Row-[3]") (js "TEXT") false true true None)
  = js "Row" ++ js "-[3]" /\
  isFigmaOrPluginGeneratedName
    plainUpper
    (mkNode (js "1:16") (js "Row-[3]") (js "TEXT") false true true None)
  = ret true.
Proof.
  split; [vm_compute; tauto|].
  split; [split; [reflexivity | intros H; vm_compute in H; discriminate]|].
  split.
  { left. exists (js "3").
    split; [split; [discriminate | repeat constructor] | reflexivity]. }
  split; reflexivity.
Qed.

(** C10, amended.  Plugin names are matched with their case: on every node
    but a TEXT node with autoRename set, a plugin token with a letter in
    upper case, followed by an index suffix, as "Row-[3]" and "FRAME-[2]",
    is not generated.  It matches neither the plugin pattern, nor a host
    literal up to case, nor the shape word, space, number; the same suffix
    after the token itself matches the plugin pattern. *)
Theorem C10_plugin_tokens_case_sensitive unicodeUpper node token variant suffix :
  In token PLUGIN_GENERATED_NAMES ->
  case_variant variant token ->
  index_suffix suffix ->
  Node.name node = variant ++ suffix ->
  (Node.type node = js "TEXT" -> Node.autoRename node = false) ->
  completes (isFigmaOrPluginGeneratedName unicodeUpper node) false /\
  test PLUGIN_NAME_PATTERN (variant ++ suffix) = false /\
  isFigmaGeneratedName unicodeUpper (variant ++ suffix) = false /\
  test PLUGIN_NAME_PATTERN (token ++ suffix) = true.
Proof.
  intros Htok Hvar Hsuf Hname Htext.
  assert (Hplugin : test PLUGIN_NAME_PATTERN (variant ++ suffix) = false).
  { apply test_false_lang. rewrite <- test_lang, PLUGIN_NAME_PATTERN_spec.
    exact (case_variant_not_plugin_name _ _ _ Htok Hvar Hsuf). }
  destruct (index_suffix_body _ Hsuf) as (body & Hbody & _).
  assert (Hbr : In 0x5B (variant ++ suffix)).
  { rewrite Hbody, in_app_iff. right. simpl. auto. }
  assert (Hshape : ~ word_number_shape (variant ++ suffix)).
  { rewrite Hbody.
    replace (variant ++ [0x2D; 0x5B] ++ body ++ [0x5D])
      with ((variant ++ [0x2D; 0x5B] ++ body) ++ [0x5D])
      by (rewrite <- ?app_assoc; reflexivity).
    apply closing_bracket_not_word_number. }
  assert (Hhost : isFigmaGeneratedName unicodeUpper (variant ++ suffix) = false).
  { destruct (isFigmaGeneratedName unicodeUpper (variant ++ suffix)) eqn:E;
      [|reflexivity].
    apply isFigmaGeneratedName_spec in E as [E|E]; [|contradiction].
    destruct (bracket_not_ci_host_literal _ Hbr E). }
  split; [|split; [exact Hplugin | split; [exact Hhost|]]].
  - unfold completes.
    destruct (kind_cases (Node.type node)) as [Hk|[Hk|[Hk|Hk]]].
    + rewrite (classifier_invalid unicodeUpper node Hk). reflexivity.
    + rewrite (classifier_text unicodeUpper node Hk), (Htext Hk), Hname.
      replace (str_eqb (variant ++ suffix) (js "text")) with false; [reflexivity|].
      symmetry. apply str_eqb_false. intros E. rewrite E in Hbr.
      vm_compute in Hbr. intuition discriminate.
    + rewrite (classifier_component unicodeUpper node Hk), Hname.
      rewrite <- figmaNameWithNumberRegex_spec in Hshape.
      destruct (test figmaNameWithNumberRegex (variant ++ suffix));
        [congruence | reflexivity].
    + rewrite (classifier_generic unicodeUpper node Hk), Hname, Hhost, Hplugin.
      reflexivity.
  - apply PLUGIN_NAME_PATTERN_spec. exists token. split; [exact Htok|].
    right. exists suffix. split; [exact Hsuf | reflexivity].
Qed.

Lemma C10_plugin_tokens_case_sensitive_witness :
  completes (isFigmaOrPluginGeneratedName plainUpper (leaf "1:12" "FRAME" "Row-[3]"))
            false /\
  completes (isFigmaOrPluginGeneratedName plainUpper (leaf "1:13" "GROUP" "FRAME-[2]"))
            false.
Proof.
  split.
  - apply (C10_plugin_tokens_case_sensitive plainUpper
             (leaf "1:12" "FRAME" "Row-[3]") (js "row") (js "Row") (js "-[3]")).
    + vm_compute. tauto.
    + split; [reflexivity | intros H; vm_compute in H; discriminate].
    + left. exists (js "3").
      split; [split; [discriminate | repeat constructor] | reflexivity].
    + reflexivity.
    + intros H; vm_compute in H; discriminate.
  - apply (C10_plugin_tokens_case_sensitive plainUpper
             (leaf "1:13" "GROUP" "FRAME-[2]") (js "frame") (js "FRAME") (js "-[2]")).
    + vm_compute. tauto.
    + split; [reflexivity | intros H; vm_compute in H; discriminate].
    + left. exists (js "2").
      split; [split; [discriminate | repeat constructor] | reflexivity].
    + reflexivity.
    + intros H; vm_compute in H; discriminate.
Defined.

(* ===================================================================== *)
(** * The orchestrator *)
(* ===================================================================== *)

(** ** Computations of the host *)

Lemma completes_ret {A} (a : A) : completes (ret a) a.
Proof. reflexivity. Qed.

Lemma completes_inj {A} (m : Host A) a b : completes m a -> completes m b -> a = b.
Proof. unfold completes. intros -> H. injection H as ->. reflexivity. Qed.

Lemma completes_bind {A B} (m : Host A) (k : A -> Host B) a b :
  completes m a -> completes (k a) b -> completes (bind m k) b.
Proof.
  unfold completes. destruct m as [[x|e|] l]; simpl; intros H; try discriminate.
  injection H as ->. destruct (k a); simpl. auto.
Qed.

Lemma events_bind {A B} (m : Host A) (k : A -> Host B) a :
  completes m a -> events (bind m k) = events m ++ events (k a).
Proof.
  unfold completes, events. destruct m as [[x|e|] l]; simpl; intros H; try discriminate.
  injection H as ->. destruct (k a); reflexivity.
Qed.

Lemma Promise_all_map_completes {A B} (f : A -> Host B) (Q : A -> B -> Prop) xs :
  Forall (fun x => exists r, completes (f x) r /\ Q x r) xs ->
  exists rs, completes (Promise_all_map f xs) rs /\ Forall2 Q xs rs.
Proof.
  induction 1 as [|x xs (r & Hr & HQ) _ (rs & Hrs & HQs)].
  - exists []. split; [reflexivity | constructor].
  - exists (r :: rs). split; [|constructor; assumption].
    unfold completes in *. simpl.
    destruct (f x) as [c l], (Promise_all_map f xs) as [cs l'].
    simpl in *. subst. reflexivity.
Qed.

Lemma Promise_all_map_Forall2 {A B} (f : A -> Host B) xs rs :
  Forall2 (fun x r => completes (f x) r) xs rs ->
  completes (Promise_all_map f xs) rs.
Proof.
  induction 1 as [|x r xs rs Hr _ IH]; [reflexivity|].
  unfold completes in *. simpl.
  destruct (f x) as [c l], (Promise_all_map f xs) as [cs l'].
  simpl in *. subst. reflexivity.
Qed.

(** Every call of the map runs: its events are those of all the calls. *)
Lemma Promise_all_map_events {A B} (f : A -> Host B) xs :
  events (Promise_all_map f xs) = concat (List.map (fun x => events (f x)) xs).
Proof.
  unfold events. induction xs as [|x xs IH]; [reflexivity|]. simpl.
  destruct (f x) as [c l], (Promise_all_map f xs) as [cs l'].
  simpl in *. rewrite IH. reflexivity.
Qed.

(** ** Induction on documents *)

Lemma SceneNode_children_ind (P : SceneNode -> Prop) :
  (forall node,
      (forall cs, Node.children node = Some cs -> Forall P cs) -> P node) ->
  forall node, P node.
Proof.
  intros Hstep. fix IH 1. intros node. apply Hstep.
  destruct node as [i n t l v a [cs|]]; simpl; intros cs' Hcs; [|discriminate].
  injection Hcs as <-.
  induction cs as [|c cs IHcs]; constructor; [apply IH | exact IHcs].
Qed.

Lemma with_children_same node cs :
  Node.children node = Some cs -> Node.with_children node cs = node.
Proof. destruct node; simpl. intros ->. reflexivity. Qed.

Lemma Forall2_faithful_erase cs rs :
  Forall2 faithful_result cs rs ->
  List.map Node.erase_names (List.map snd rs) = List.map Node.erase_names cs.
Proof.
  induction 1 as [|c r cs rs (He & _ & _) _ IH]; [reflexivity|].
  simpl. rewrite He, IH. reflexivity.
Qed.

Lemma Forall2_faithful_unchanged cs rs :
  Forall2 faithful_result cs rs ->
  existsb fst rs = false -> List.map snd rs = cs.
Proof.
  induction 1 as [|c r cs rs (_ & Hf & _) _ IH]; [reflexivity|].
  simpl. intros H. apply orb_false_iff in H as [H1 H2].
  rewrite (Hf H1), (IH H2). reflexivity.
Qed.

Lemma Forall2_faithful_changed cs rs :
  Forall2 faithful_result cs rs ->
  existsb fst rs = true -> List.map snd rs <> cs.
Proof.
  induction 1 as [|c r cs rs (_ & Hf & Ht) Hrs IH]; [discriminate|].
  simpl. intros H Heq. injection Heq as Hr Hrest.
  destruct (fst r) eqn:E.
  - exact (Ht eq_refl Hr).
  - simpl in H. exact (IH H Hrest).
Qed.

(** ** One node *)

Section Orchestrator.
Variable unicodeUpper : N -> list N.
Variable generateName : NamingStrategy.
Variable setName : NameAssignment.
Variable options : AllOptions.

Lemma generated_true_silent node :
  generated unicodeUpper node = true ->
  isFigmaOrPluginGeneratedName unicodeUpper node = (Return true, []).
Proof.
  unfold generated. destruct (classifier_returns unicodeUpper node) as (b & Hb).
  destruct (isValidFigmaNodeType (Node.type node)) eqn:Hv.
  - rewrite Hb. simpl. intros ->. reflexivity.
  - rewrite (classifier_invalid unicodeUpper node Hv). simpl. discriminate.
Qed.

Lemma generated_false node :
  generated unicodeUpper node = false ->
  exists l, isFigmaOrPluginGeneratedName unicodeUpper node = (Return false, l).
Proof.
  unfold generated. destruct (classifier_returns unicodeUpper node) as (b & Hb).
  rewrite Hb. simpl. intros ->. eauto.
Qed.

(** A node that does not pass the gates is left alone. *)
Lemma renameLayer_skip node :
  reaches_strategy unicodeUpper options node = false ->
  exists l, renameLayer unicodeUpper generateName setName node options
            = (Return (false, node), l).
Proof.
  unfold reaches_strategy, skipped_instance, renameLayer. intros H.
  destruct (Node.locked node && negb (Options.locked options)); [simpl; eauto|].
  destruct (negb (Node.visible node) && negb (Options.hidden options));
    [simpl; eauto|].
  destruct (str_eqb (Node.type node) (js "INSTANCE")
            && negb (Options.instance options)); [simpl; eauto|].
  simpl in H. apply orb_false_iff in H as [Hc Hg]. rewrite Hc. simpl negb.
  cbv iota. destruct (generated_false node Hg) as (l & Hl). rewrite Hl.
  simpl. eauto.
Qed.

(** A node that passes the gates gets the proposed name, unless it has it
    already, the strategy fails or the assignment fails. *)
Lemma renameLayer_attempt node :
  reaches_strategy unicodeUpper options node = true ->
  renameLayer unicodeUpper generateName setName node options =
  match generateName node options with
  | Fulfilled newName =>
      if str_eqb (Node.name node) newName
      then (Return (false, node), [])
      else match setName node newName with
           | None => (Return (true, Node.set_name node newName), [])
           | Some e =>
               (Return (false, node),
                [console_error (Node.id node) e; figma_notify (Node.name node)])
           end
  | Rejected e =>
      (Return (false, node),
       [console_error (Node.id node) e; figma_notify (Node.name node)])
  end.
Proof.
  unfold reaches_strategy, skipped_instance, renameLayer. intros H.
  destruct (Node.locked node && negb (Options.locked options)); [discriminate|].
  destruct (negb (Node.visible node) && negb (Options.hidden options));
    [discriminate|].
  destruct (str_eqb (Node.type node) (js "INSTANCE")
            && negb (Options.instance options)); [discriminate|].
  simpl in H.
  assert (Hgate :
            (if negb (Options.renameCustomNames options)
             then bind (isFigmaOrPluginGeneratedName unicodeUpper node)
                       (fun generated => ret (negb generated))
             else ret false) = (Return false, [])).
  { destruct (Options.renameCustomNames options); [reflexivity|].
    simpl in H. rewrite (generated_true_silent node H). reflexivity. }
  rewrite Hgate. simpl.
  destruct (generateName node options) as [newName|e]; simpl; [|reflexivity].
  destruct (str_eqb (Node.name node) newName); [reflexivity|]. simpl.
  destruct (setName node newName); reflexivity.
Qed.

(** [renameLayer] never throws; it changes at most the name of the node and
    says so. *)
Lemma renameLayer_returns node :
  exists b node', completes (renameLayer unicodeUpper generateName setName node options)
                            (b, node') /\
    (b = false -> node' = node) /\
    (b = true -> exists newName,
        newName <> Node.name node /\ node' = Node.set_name node newName /\
        generateName node options = Fulfilled newName /\
        reaches_strategy unicodeUpper options node = true /\
        setName node newName = None).
Proof.
  destruct (reaches_strategy unicodeUpper options node) eqn:Hr.
  - rewrite (renameLayer_attempt node Hr).
    destruct (generateName node options) as [newName|e].
    + destruct (str_eqb (Node.name node) newName) eqn:E.
      * exists false, node. split; [reflexivity|]. split; [auto | discriminate].
      * destruct (setName node newName) as [e|] eqn:Ea.
        { exists false, node. split; [reflexivity|].
          split; [auto | discriminate]. }
        exists true, (Node.set_name node newName).
        split; [reflexivity|]. split; [discriminate|]. intros _.
        exists newName. apply str_eqb_false in E. auto 10.
    + exists false, node. split; [reflexivity|]. split; [auto | discriminate].
  - destruct (renameLayer_skip node Hr) as (l & Hl). rewrite Hl.
    exists false, node. split; [reflexivity|]. split; [auto | discriminate].
Qed.

(** ** A node and its children *)

Lemma renameNodeAndChildren_unfold node :
  renameNodeAndChildren unicodeUpper generateName setName node options =
  if skipped_instance options node then ret (false, node)
  else
    bind (renameLayer unicodeUpper generateName setName node options)
      (fun renamed =>
         let (hasRenamed, node') := renamed : bool * SceneNode in
         match Node.children node with
         | Some cs =>
             bind (Promise_all_map
                     (fun child =>
                        renameNodeAndChildren unicodeUpper generateName setName child options)
                     cs)
                  (fun childResults =>
                     ret (hasRenamed || existsb fst childResults,
                          Node.with_children node' (List.map snd childResults)))
         | None => ret (hasRenamed, node')
         end).
Proof.
  destruct node as [i n t l v a cs]. unfold skipped_instance. simpl.
  destruct (str_eqb t (js "INSTANCE")), (Options.instance options);
    reflexivity.
Qed.

Lemma renameNodeAndChildren_skipped node :
  skipped_instance options node = true ->
  renameNodeAndChildren unicodeUpper generateName setName node options = ret (false, node).
Proof. intros H. rewrite renameNodeAndChildren_unfold, H. reflexivity. Qed.

Lemma renameNodeAndChildren_leaf node b node' :
  skipped_instance options node = false ->
  Node.children node = None ->
  completes (renameLayer unicodeUpper generateName setName node options) (b, node') ->
  completes (renameNodeAndChildren unicodeUpper generateName setName node options)
            (b, node').
Proof.
  intros Hs Hc Hl. rewrite renameNodeAndChildren_unfold, Hs, Hc.
  eapply completes_bind; [exact Hl|]. reflexivity.
Qed.

Lemma renameNodeAndChildren_inner node cs b node' rs :
  skipped_instance options node = false ->
  Node.children node = Some cs ->
  completes (renameLayer unicodeUpper generateName setName node options) (b, node') ->
  completes (Promise_all_map
               (fun child =>
                  renameNodeAndChildren unicodeUpper generateName setName child options) cs)
            rs ->
  completes (renameNodeAndChildren unicodeUpper generateName setName node options)
            (b || existsb fst rs, Node.with_children node' (List.map snd rs)).
Proof.
  intros Hs Hc Hl Hrs. rewrite renameNodeAndChildren_unfold, Hs, Hc.
  eapply completes_bind; [exact Hl|]. simpl.
  eapply completes_bind; [exact Hrs|]. reflexivity.
Qed.

Lemma erase_names_set_name node newName :
  Node.erase_names (Node.set_name node newName) = Node.erase_names node.
Proof. destruct node; reflexivity. Qed.

Lemma erase_names_with_children node cs cs' :
  Node.children node = Some cs ->
  List.map Node.erase_names cs' = List.map Node.erase_names cs ->
  Node.erase_names (Node.with_children node cs') = Node.erase_names node.
Proof. destruct node; simpl. intros -> H. simpl. rewrite H. reflexivity. Qed.

(** The walk of a subtree never throws, changes names only, and its flag
    tells whether a name changed. *)
Lemma renameNodeAndChildren_faithful node :
  exists r,
    completes (renameNodeAndChildren unicodeUpper generateName setName node options) r /\
    faithful_result node r.
Proof.
  induction node as [node IH] using SceneNode_children_ind.
  destruct (skipped_instance options node) eqn:Hs.
  { exists (false, node). rewrite (renameNodeAndChildren_skipped node Hs).
    split; [reflexivity|]. split; [reflexivity|]. split; [auto | discriminate]. }
  destruct (renameLayer_returns node) as (b & node' & Hl & Hfalse & Htrue).
  assert (Hnode' : Node.erase_names node' = Node.erase_names node /\
                   Node.children node' = Node.children node).
  { destruct b.
    - destruct (Htrue eq_refl) as (s & _ & -> & _).
      split; [apply erase_names_set_name | reflexivity].
    - rewrite (Hfalse eq_refl). auto. }
  destruct Hnode' as [Herase Hchildren].
  destruct (Node.children node) as [cs|] eqn:Hc.
  - destruct (Promise_all_map_completes
                (fun child =>
                   renameNodeAndChildren unicodeUpper generateName setName child options)
                faithful_result cs (IH cs eq_refl)) as (rs & Hrs & Hfaith).
    exists (b || existsb fst rs, Node.with_children node' (List.map snd rs)).
    split; [apply (renameNodeAndChildren_inner node cs); assumption|].
    unfold faithful_result. cbn [fst snd]. split; [|split].
    + rewrite (erase_names_with_children node' cs _ Hchildren
                 (Forall2_faithful_erase cs rs Hfaith)).
      exact Herase.
    + intros H. apply orb_false_iff in H as [Hb Hrest]. subst b.
      rewrite (Hfalse eq_refl), (Forall2_faithful_unchanged cs rs Hfaith Hrest).
      apply with_children_same, Hc.
    + intros H Heq. destruct b.
      * destruct (Htrue eq_refl) as (s & Hne & -> & _).
        apply Hne. rewrite <- Heq. reflexivity.
      * simpl in H. rewrite (Hfalse eq_refl) in Heq.
        apply (Forall2_faithful_changed cs rs Hfaith H).
        apply (f_equal Node.children) in Heq. simpl in Heq.
        congruence.
  - exists (b, node').
    split; [apply renameNodeAndChildren_leaf; assumption|].
    unfold faithful_result. cbn [fst snd]. split; [exact Herase|]. split; [exact Hfalse|].
    intros Hb Heq. destruct (Htrue Hb) as (s & Hne & -> & _).
    apply Hne. rewrite <- Heq. reflexivity.
Qed.

(** ** The batches *)

Lemma slice_skipn (nodes : list SceneNode) i :
  skipn i nodes = slice i (i + batchSize) nodes ++ skipn (i + batchSize) nodes.
Proof.
  unfold slice. replace (i + batchSize - i)%nat with batchSize by lia.
  rewrite <- (firstn_skipn batchSize (skipn i nodes)) at 1.
  rewrite skipn_skipn. f_equal. f_equal. lia.
Qed.

(** With the fuel [processBatchNodes] gives it, the loop handles every root
    from [i] on, each with [renameNodeAndChildren]. *)
Lemma processBatchLoop_completes nodes fuel :
  forall i hasRenamed rs,
    (length nodes - i <= fuel * batchSize)%nat ->
    Forall2 (fun node r =>
               completes (renameNodeAndChildren unicodeUpper generateName setName
                                                node options) r)
            (skipn i nodes) rs ->
    completes (processBatchLoop unicodeUpper generateName setName fuel i nodes options
                                hasRenamed)
              (hasRenamed || existsb fst rs, List.map snd rs).
Proof.
  induction fuel as [|fuel IH]; intros i h rs Hfuel Hrs.
  - rewrite skipn_all2 in Hrs by (simpl in Hfuel; lia).
    inversion Hrs; subst. simpl.
    rewrite skipn_all2 by (simpl in Hfuel; lia).
    rewrite orb_false_r. reflexivity.
  - simpl. destruct (Nat.ltb_spec i (length nodes)) as [Hlt|Hge].
    + rewrite slice_skipn in Hrs.
      apply Forall2_app_inv_l in Hrs as (rs1 & rs2 & H1 & H2 & ->).
      apply Promise_all_map_Forall2 in H1.
      eapply completes_bind; [exact H1|].
      eapply completes_bind.
      { instantiate (1 := tt).
        destruct (i + batchSize <? length nodes)%nat; reflexivity. }
      eapply completes_bind.
      { apply (IH (i + batchSize)%nat _ rs2); [|exact H2].
        unfold batchSize in *. simpl in Hfuel. lia. }
      simpl. rewrite existsb_app, map_app, orb_assoc. reflexivity.
    + rewrite skipn_all2 in Hrs by lia. inversion Hrs; subst. simpl.
      rewrite skipn_all2 by lia. rewrite orb_false_r. reflexivity.
Qed.

(** [renameLayersInSelection] returns, with the disjunction of the flags of
    the roots and the roots as their walks leave them. *)
Lemma renameLayersInSelection_completes selection rs :
  Forall2 (fun node r =>
             completes (renameNodeAndChildren unicodeUpper generateName setName
                                              node options) r)
          selection rs ->
  completes (renameLayersInSelection unicodeUpper generateName setName selection options)
            (existsb fst rs, List.map snd rs).
Proof.
  intros Hrs.
  assert (H : completes (processBatchNodes unicodeUpper generateName setName
                                           selection options)
                        (existsb fst rs, List.map snd rs)).
  { unfold processBatchNodes.
    apply (processBatchLoop_completes selection (S (length selection)) 0%nat
                                      false rs); [|exact Hrs].
    unfold batchSize. lia. }
  unfold renameLayersInSelection, completes in *.
  destruct (processBatchNodes unicodeUpper generateName setName selection options)
    as [[x|e|] l]; simpl in *; congruence.
Qed.

Lemma selection_results selection :
  exists rs,
    Forall2 (fun node r =>
               completes (renameNodeAndChildren unicodeUpper generateName setName
                                                node options) r /\
               faithful_result node r)
            selection rs.
Proof.
  induction selection as [|node selection (rs & IH)]; [exists []; constructor|].
  destruct (renameNodeAndChildren_faithful node) as (r & Hr & Hf).
  exists (r :: rs). constructor; auto.
Qed.

End Orchestrator.

(** ** What the run reports *)

Lemma events_bind_l {A B} (m : Host A) (k : A -> Host B) e :
  In e (events m) -> In e (events (bind m k)).
Proof.
  unfold events. destruct m as [[a|x|] l]; simpl; try tauto.
  destruct (k a); simpl. rewrite in_app_iff. auto.
Qed.

Lemma events_bind_r {A B} (m : Host A) (k : A -> Host B) a e :
  completes m a -> In e (events (k a)) -> In e (events (bind m k)).
Proof.
  intros Hm He. rewrite (events_bind m k a Hm), in_app_iff. auto.
Qed.

Lemma Promise_all_map_events_In {A B} (f : A -> Host B) xs x e :
  In x xs -> In e (events (f x)) -> In e (events (Promise_all_map f xs)).
Proof.
  intros Hx He. rewrite Promise_all_map_events. apply in_concat.
  exists (events (f x)). split; [|exact He].
  apply in_map_iff. eauto.
Qed.

Lemma Forall2_untouched (cs : list SceneNode) rs :
  Forall2 (fun c r => r = (false, c)) cs rs ->
  existsb fst rs = false /\ List.map snd rs = cs.
Proof.
  induction 1 as [|c r cs rs -> _ [IH1 IH2]]; [auto|].
  simpl. rewrite IH1, IH2. auto.
Qed.

Section Reports.
Variable unicodeUpper : N -> list N.
Variable generateName : NamingStrategy.
Variable setName : NameAssignment.
Variable options : AllOptions.

Lemma renameNodeAndChildren_completes node :
  exists r, completes (renameNodeAndChildren unicodeUpper generateName setName node options) r.
Proof.
  destruct (renameNodeAndChildren_faithful unicodeUpper generateName setName options node)
    as (r & Hr & _). eauto.
Qed.

Lemma Promise_all_map_walks_complete nodes :
  exists rs,
    Forall2 (fun node r =>
               completes (renameNodeAndChildren unicodeUpper generateName setName
                                                node options) r)
            nodes rs.
Proof.
  induction nodes as [|node nodes (rs & IH)]; [exists []; constructor|].
  destruct (renameNodeAndChildren_completes node) as (r & Hr).
  exists (r :: rs). constructor; assumption.
Qed.

(** The events of the rename of a node the walk reaches are events of the
    walk. *)
Lemma walk_reaches_events root n e :
  walk_reaches options root n ->
  In e (events (renameLayer unicodeUpper generateName setName n options)) ->
  In e (events (renameNodeAndChildren unicodeUpper generateName setName root options)).
Proof.
  intros Hw He.
  induction Hw as [node Hs | node cs child n Hs Hc Hin _ IH].
  - rewrite renameNodeAndChildren_unfold, Hs. apply events_bind_l, He.
  - rewrite renameNodeAndChildren_unfold, Hs.
    destruct (renameLayer_returns unicodeUpper generateName setName options node)
      as (b & node' & Hl & _).
    eapply events_bind_r; [exact Hl|]. simpl. rewrite Hc.
    apply events_bind_l.
    apply (Promise_all_map_events_In _ cs child e Hin). apply IH, He.
Qed.

Lemma processBatchLoop_events nodes fuel :
  forall i hasRenamed root e,
    (length nodes - i <= fuel * batchSize)%nat ->
    In root (skipn i nodes) ->
    In e (events (renameNodeAndChildren unicodeUpper generateName setName root options)) ->
    In e (events (processBatchLoop unicodeUpper generateName setName fuel i nodes options
                                   hasRenamed)).
Proof.
  induction fuel as [|fuel IH]; intros i h root e Hfuel Hroot He.
  - rewrite skipn_all2 in Hroot by (simpl in Hfuel; lia). destruct Hroot.
  - simpl. destruct (Nat.ltb_spec i (length nodes)) as [Hlt|Hge].
    + rewrite slice_skipn, in_app_iff in Hroot. destruct Hroot as [Hroot|Hroot].
      * apply events_bind_l.
        apply (Promise_all_map_events_In _ _ root e Hroot He).
      * destruct (Promise_all_map_walks_complete (slice i (i + batchSize) nodes))
          as (rs & Hrs).
        apply Promise_all_map_Forall2 in Hrs.
        eapply events_bind_r; [exact Hrs|].
        eapply events_bind_r.
        { instantiate (1 := tt).
          destruct (i + batchSize <? length nodes)%nat; reflexivity. }
        apply events_bind_l. apply (IH _ _ root e); [|exact Hroot | exact He].
        unfold batchSize in *. simpl in Hfuel. lia.
    + rewrite skipn_all2 in Hroot by lia. destruct Hroot.
Qed.

(** No root of the selection and no node below it is left out: what the
    rename of a reached node reports, the run reports. *)
Lemma renameLayersInSelection_events selection root n e :
  In root selection ->
  walk_reaches options root n ->
  In e (events (renameLayer unicodeUpper generateName setName n options)) ->
  In e (events (renameLayersInSelection unicodeUpper generateName setName selection options)).
Proof.
  intros Hroot Hw He.
  assert (H : In e (events (processBatchNodes unicodeUpper generateName setName
                                              selection options))).
  { unfold processBatchNodes.
    apply (processBatchLoop_events selection _ 0%nat false root e).
    - unfold batchSize. lia.
    - exact Hroot.
    - apply (walk_reaches_events root n e Hw He). }
  unfold renameLayersInSelection, events in *.
  destruct (processBatchNodes unicodeUpper generateName setName selection options)
    as [[x|x|] l]; exact H.
Qed.

(** With a strategy that always fails no walk renames anything. *)
Lemma renameNodeAndChildren_throwing node :
  (forall n o, exists e, generateName n o = Rejected e) ->
  completes (renameNodeAndChildren unicodeUpper generateName setName node options)
            (false, node).
Proof.
  intros Hthrow. induction node as [node IH] using SceneNode_children_ind.
  destruct (skipped_instance options node) eqn:Hs.
  { rewrite (renameNodeAndChildren_skipped _ _ _ _ node Hs). reflexivity. }
  destruct (renameLayer_returns unicodeUpper generateName setName options node)
    as (b & node' & Hl & Hfalse & Htrue).
  destruct b.
  { destruct (Htrue eq_refl) as (s & _ & _ & Hg & _).
    destruct (Hthrow node options) as (e & He). congruence. }
  rewrite (Hfalse eq_refl) in Hl.
  destruct (Node.children node) as [cs|] eqn:Hc.
  - destruct (Promise_all_map_completes
                (fun child =>
                   renameNodeAndChildren unicodeUpper generateName setName child options)
                (fun child r => r = (false, child)) cs) as (rs & Hrs & Hsame).
    { specialize (IH cs eq_refl). eapply Forall_impl; [exact IH|].
      simpl. intros c H. eauto. }
    destruct (Forall2_untouched cs rs Hsame) as [Hflag Hnodes].
    pose proof (renameNodeAndChildren_inner unicodeUpper generateName setName options
                  node cs false node rs Hs Hc Hl Hrs) as H.
    rewrite Hflag, Hnodes, (with_children_same node cs Hc) in H. exact H.
  - apply renameNodeAndChildren_leaf; assumption.
Qed.

End Reports.

(* ===================================================================== *)
(** * The claims on the orchestrator *)
(* ===================================================================== *)

Lemma selection_of_one unicodeUpper generateName setName options node r :
  completes (renameNodeAndChildren unicodeUpper generateName setName node options) r ->
  completes (renameLayersInSelection unicodeUpper generateName setName [node] options)
            (fst r, [snd r]).
Proof.
  intros Hr.
  pose proof (renameLayersInSelection_completes unicodeUpper generateName setName options
                [node] [r]) as H.
  simpl in H. rewrite orb_false_r in H. apply H. constructor; [exact Hr | constructor].
Qed.

(** C5.  An INSTANCE node is skipped with its whole subtree when
    [options.instance] is off: the recursive rename returns false, reports
    nothing, and leaves the node and every descendant as they were, whatever
    names the descendants have and whatever the strategy would propose.  So
    does a run on the selection that consists of this node. *)
Theorem C5_instances_are_skipped unicodeUpper generateName setName node options :
  Node.type node = js "INSTANCE" ->
  Options.instance options = false ->
  renameNodeAndChildren unicodeUpper generateName setName node options = ret (false, node) /\
  completes (renameLayersInSelection unicodeUpper generateName setName [node] options)
            (false, [node]) /\
  events (renameLayersInSelection unicodeUpper generateName setName [node] options) = [].
Proof.
  intros Ht Hi.
  assert (Hs : skipped_instance options node = true).
  { unfold skipped_instance. rewrite Ht, Hi, str_eqb_refl. reflexivity. }
  pose proof (renameNodeAndChildren_skipped unicodeUpper generateName setName options
                node Hs) as Hskip.
  split; [exact Hskip|]. split.
  - apply (selection_of_one unicodeUpper generateName setName options node (false, node)).
    rewrite Hskip. reflexivity.
  - unfold renameLayersInSelection, processBatchNodes. simpl.
    unfold slice. simpl. rewrite Hskip. reflexivity.
Qed.

Lemma C5_instances_are_skipped_witness :
  isFigmaOrPluginGeneratedName plainUpper (leaf "5:2" "RECTANGLE" "Rectangle 1")
  = ret true /\
  renameNodeAndChildren plainUpper (constantStrategy "layer") alwaysAssigns
                        instanceWithChildren defaultOptions
  = ret (false, instanceWithChildren).
Proof.
  split; [reflexivity|].
  destruct (C5_instances_are_skipped plainUpper (constantStrategy "layer") alwaysAssigns
              instanceWithChildren defaultOptions eq_refl eq_refl)
    as (Hwalk & _).
  exact Hwalk.
Defined.







(** C4.  With a naming strategy that fails on every call a run returns
    false and does not throw, for every selection and all options, and the
    selection is left as it was.  Each failure ends at the node: the rename
    of a node that passes the gates returns false and reports the failure
    with the identifier and the name of the node.  No node is left out
    because another failed: the run reports the failure of every such node
    that the walk of a root reaches. *)
Theorem C4_throwing_strategy unicodeUpper generateName setName selection options :
  (forall node o, exists e, generateName node o = Rejected e) ->
  completes (renameLayersInSelection unicodeUpper generateName setName selection options)
            (false, selection) /\
  (forall node,
      exists l, renameLayer unicodeUpper generateName setName node options
                = (Return (false, node), l)) /\
  (forall node,
      reaches_strategy unicodeUpper options node = true ->
      exists e, renameLayer unicodeUpper generateName setName node options
                = (Return (false, node),
                   [console_error (Node.id node) e; figma_notify (Node.name node)])) /\
  (forall root node,
      In root selection ->
      walk_reaches options root node ->
      reaches_strategy unicodeUpper options node = true ->
      In (figma_notify (Node.name node))
         (events (renameLayersInSelection unicodeUpper generateName setName
                                          selection options))).
Proof.
  intros Hthrow.
  assert (Hfail : forall node,
             reaches_strategy unicodeUpper options node = true ->
             exists e, renameLayer unicodeUpper generateName setName node options
                       = (Return (false, node),
                          [console_error (Node.id node) e;
                           figma_notify (Node.name node)])).
  { intros node Hr.
    rewrite (renameLayer_attempt unicodeUpper generateName setName options node Hr).
    destruct (Hthrow node options) as (e & ->). eauto. }
  split; [|split; [|split]].
  - assert (Hrs : Forall2
                    (fun root r =>
                       completes (renameNodeAndChildren unicodeUpper generateName setName
                                                        root options) r)
                    selection (List.map (fun root => (false, root)) selection)).
    { induction selection as [|root rest IH]; constructor; [|exact IH].
      apply renameNodeAndChildren_throwing, Hthrow. }
    pose proof (renameLayersInSelection_completes unicodeUpper generateName setName
                  options selection _ Hrs) as H.
    rewrite map_map, map_id in H.
    replace (existsb fst (List.map (fun root : SceneNode => (false, root)) selection))
      with false in H; [exact H|].
    clear. induction selection as [|root rest IH]; [reflexivity | exact IH].
  - intros node. destruct (reaches_strategy unicodeUpper options node) eqn:Hr.
    + destruct (Hfail node Hr) as (e & He). eauto.
    + apply renameLayer_skip, Hr.
  - exact Hfail.
  - intros root node Hroot Hwalk Hr. destruct (Hfail node Hr) as (e & He).
    apply (renameLayersInSelection_events unicodeUpper generateName setName options
             selection root node _ Hroot Hwalk).
    rewrite He. simpl. auto.
Qed.

Lemma C4_throwing_strategy_witness :
  length tenNodes = 10%nat /\
  completes (renameLayersInSelection plainUpper throwingStrategy alwaysAssigns
                                     tenNodes defaultOptions)
            (false, tenNodes).
Proof.
  split; [reflexivity|].
  assert (Hthrow : forall node o, exists e, throwingStrategy node o = Rejected e).
  { intros node o. exists (js "no strategy"). reflexivity. }
  destruct (C4_throwing_strategy plainUpper throwingStrategy alwaysAssigns tenNodes
              defaultOptions Hthrow) as (Hrun & _).
  exact Hrun.
Defined.

(** ** Running twice *)

Lemma erase_names_fields a b :
  Node.erase_names a = Node.erase_names b ->
  Node.type a = Node.type b /\ Node.locked a = Node.locked b /\
  Node.visible a = Node.visible b /\ Node.autoRename a = Node.autoRename b.
Proof.
  destruct a, b; simpl. intros H. injection H as _ -> -> -> -> _. auto.
Qed.

Lemma reaches_strategy_ext unicodeUpper options a b :
  Node.erase_names a = Node.erase_names b ->
  Node.name a = Node.name b ->
  reaches_strategy unicodeUpper options a = reaches_strategy unicodeUpper options b.
Proof.
  intros He Hn. destruct (erase_names_fields a b He) as (Ht & Hl & Hv & Ha).
  unfold reaches_strategy, skipped_instance, generated,
    isFigmaOrPluginGeneratedName.
  rewrite Ht, Hl, Hv, Ha, Hn. reflexivity.
Qed.

Lemma skipped_instance_ext options a b :
  Node.erase_names a = Node.erase_names b ->
  skipped_instance options a = skipped_instance options b.
Proof.
  intros He. destruct (erase_names_fields a b He) as (Ht & _).
  unfold skipped_instance. rewrite Ht. reflexivity.
Qed.

Section Twice.
Variable unicodeUpper : N -> list N.
Variable generateName : NamingStrategy.
Variable setName : NameAssignment.
Variable options : AllOptions.
Hypothesis generateName_stable :
  stable unicodeUpper generateName setName options.

(** The name a rename leaves on a node that passes the gates. *)
Lemma renameLayer_name_after node b renamed :
  reaches_strategy unicodeUpper options node = true ->
  completes (renameLayer unicodeUpper generateName setName node options)
            (b, renamed) ->
  Node.name renamed = name_after generateName setName options node.
Proof.
  intros Hr Hl. unfold name_after.
  rewrite (renameLayer_attempt unicodeUpper generateName setName options node Hr)
    in Hl.
  unfold completes in Hl.
  destruct (generateName node options) as [s|e].
  - destruct (str_eqb (Node.name node) s) eqn:E.
    + simpl in Hl. injection Hl as _ <-. apply str_eqb_true in E.
      destruct (setName node s); congruence.
    + destruct (setName node s); simpl in Hl; injection Hl as _ <-; reflexivity.
  - simpl in Hl. injection Hl as _ <-. reflexivity.
Qed.

(** After the rename of a node, the rename of the node that carries the
    resulting name, whatever the names below it, is a no-op. *)
Lemma renameLayer_again node node' b renamed :
  completes (renameLayer unicodeUpper generateName setName node options)
            (b, renamed) ->
  Node.erase_names node' = Node.erase_names node ->
  Node.name node' = Node.name renamed ->
  completes (renameLayer unicodeUpper generateName setName node' options)
            (false, node').
Proof.
  intros Hl He Hn.
  destruct (reaches_strategy unicodeUpper options node') eqn:Hr'.
  2:{ destruct (renameLayer_skip unicodeUpper generateName setName options
                  node' Hr') as (l & ->). reflexivity. }
  assert (Hr : reaches_strategy unicodeUpper options node = true).
  { destruct (reaches_strategy unicodeUpper options node) eqn:Hr; [reflexivity|].
    destruct (renameLayer_skip unicodeUpper generateName setName options node Hr)
      as (l & Hskip).
    rewrite Hskip in Hl. unfold completes in Hl. simpl in Hl.
    injection Hl as _ <-.
    rewrite (reaches_strategy_ext unicodeUpper options node' node He Hn) in Hr'.
    congruence. }
  assert (Hstay : ~ would_rename generateName setName options node').
  { apply (generateName_stable node node'); [symmetry; exact He | exact Hr
                                              | exact Hr'|].
    rewrite Hn. exact (renameLayer_name_after node b renamed Hr Hl). }
  rewrite (renameLayer_attempt unicodeUpper generateName setName options node' Hr').
  destruct (generateName node' options) as [s|e] eqn:Hg; [|reflexivity].
  destruct (str_eqb (Node.name node') s) eqn:E; [reflexivity|].
  destruct (setName node' s) as [e|] eqn:Ha; [reflexivity|].
  exfalso. apply Hstay. exists s. apply str_eqb_false in E. auto.
Qed.

Lemma Forall2_again (cs : list SceneNode) rs :
  Forall2 (fun _ r =>
             completes (renameNodeAndChildren unicodeUpper generateName setName
                          (snd r) options) (false, snd r)) cs rs ->
  Forall2 (fun c' r' =>
             completes (renameNodeAndChildren unicodeUpper generateName setName c' options) r')
          (List.map snd rs)
          (List.map (fun r : bool * SceneNode => (false, snd r)) rs).
Proof.
  induction 1 as [|c r cs rs Hr _ IH]; simpl; constructor; assumption.
Qed.

Lemma again_results (rs : list (bool * SceneNode)) :
  existsb fst (List.map (fun r : bool * SceneNode => (false, snd r)) rs) = false /\
  List.map snd (List.map (fun r : bool * SceneNode => (false, snd r)) rs)
  = List.map snd rs.
Proof.
  induction rs as [|r rs [IH1 IH2]]; [auto|]. simpl. rewrite IH1, IH2. auto.
Qed.

(** The walk of a subtree that a walk has left is a no-op. *)
Lemma renameNodeAndChildren_again node :
  forall r,
    completes (renameNodeAndChildren unicodeUpper generateName setName node options) r ->
    completes (renameNodeAndChildren unicodeUpper generateName setName (snd r) options)
              (false, snd r).
Proof.
  induction node as [node IH] using SceneNode_children_ind. intros r Hr.
  destruct (skipped_instance options node) eqn:Hs.
  { rewrite (renameNodeAndChildren_skipped _ _ _ _ node Hs) in Hr.
    pose proof (completes_inj _ _ _ Hr (completes_ret (false, node))) as ->.
    simpl. rewrite (renameNodeAndChildren_skipped _ _ _ _ node Hs). reflexivity. }
  destruct (renameLayer_returns unicodeUpper generateName setName options node)
    as (b & renamed & Hl & Hfalse & Htrue).
  assert (Hrenamed : Node.erase_names renamed = Node.erase_names node /\
                     Node.children renamed = Node.children node).
  { destruct b.
    - destruct (Htrue eq_refl) as (s & _ & -> & _).
      split; [apply erase_names_set_name | reflexivity].
    - rewrite (Hfalse eq_refl). auto. }
  destruct Hrenamed as [Herase Hchildren].
  destruct (Node.children node) as [cs|] eqn:Hc.
  - destruct (Promise_all_map_completes
                (fun child =>
                   renameNodeAndChildren unicodeUpper generateName setName child options)
                (fun c r =>
                   faithful_result c r /\
                   completes (renameNodeAndChildren unicodeUpper generateName setName
                                (snd r) options) (false, snd r))
                cs) as (rs & Hrs & Hboth).
    { specialize (IH cs eq_refl). eapply Forall_impl; [exact IH|].
      simpl. intros c Hc'.
      destruct (renameNodeAndChildren_faithful unicodeUpper generateName setName options c)
        as (rc & Hrc & Hfc).
      exists rc. auto. }
    pose proof (renameNodeAndChildren_inner unicodeUpper generateName setName options
                  node cs b renamed rs Hs Hc Hl Hrs) as Hnode.
    pose proof (completes_inj _ _ _ Hr Hnode) as ->. cbn [snd].
    set (node' := Node.with_children renamed (List.map snd rs)).
    assert (Hfaith : Forall2 faithful_result cs rs).
    { eapply Forall2_impl; [exact Hboth|]. simpl. tauto. }
    assert (Herase' : Node.erase_names node' = Node.erase_names node).
    { unfold node'.
      rewrite (erase_names_with_children renamed cs _ Hchildren
                 (Forall2_faithful_erase cs rs Hfaith)).
      exact Herase. }
    assert (Hs' : skipped_instance options node' = false).
    { rewrite (skipped_instance_ext options node' node Herase'). exact Hs. }
    assert (Hl' : completes (renameLayer unicodeUpper generateName setName node' options)
                            (false, node')).
    { apply (renameLayer_again node node' b renamed Hl Herase').
      destruct renamed; reflexivity. }
    assert (Hc' : Node.children node' = Some (List.map snd rs)).
    { destruct renamed; reflexivity. }
    pose proof (renameNodeAndChildren_inner unicodeUpper generateName setName options
                  node' (List.map snd rs) false node'
                  (List.map (fun r : bool * SceneNode => (false, snd r)) rs)
                  Hs' Hc' Hl') as Hagain.
    destruct (again_results rs) as [Hflag Hnodes].
    rewrite Hflag, Hnodes, (with_children_same node' _ Hc') in Hagain.
    apply Hagain. apply Promise_all_map_Forall2, (Forall2_again cs).
    eapply Forall2_impl; [exact Hboth|]. simpl. tauto.
  - pose proof (renameNodeAndChildren_leaf unicodeUpper generateName setName options
                  node b renamed Hs Hc Hl) as Hnode.
    pose proof (completes_inj _ _ _ Hr Hnode) as ->. cbn [snd].
    apply renameNodeAndChildren_leaf.
    + rewrite (skipped_instance_ext options renamed node Herase). exact Hs.
    + congruence.
    + apply (renameLayer_again node renamed b renamed Hl Herase eq_refl).
Qed.

End Twice.

(** C3, as the specification states it, fails for a strategy that looks at
    the current name: with the same strategy in both runs, the second run
    renames again and returns true. *)
Lemma C3_second_run_counterexample :
  completes (renameLayersInSelection plainUpper togglingStrategy alwaysAssigns
                                     [leaf "3:9" "FRAME" "frame"] defaultOptions)
            (true, [leaf "3:9" "FRAME" "group"]) /\
  completes (renameLayersInSelection plainUpper togglingStrategy alwaysAssigns
                                     [leaf "3:9" "FRAME" "group"] defaultOptions)
            (true, [leaf "3:9" "FRAME" "frame"]).
Proof. vm_compute. auto. Qed.

(** C3, amended.  A run returns, changes names only, and returns true
    exactly when the name of some node changed.  If the naming strategy is
    the same in two runs in a row and is stable, that is, proposes for a node
    that carries the name its rename left it with no other name that the
    host assigns, then the second run, on the selection as the first left
    it, returns false and changes nothing. *)
Theorem C3_second_run_is_noop unicodeUpper generateName setName selection options :
  exists b selection',
    completes (renameLayersInSelection unicodeUpper generateName setName selection options)
              (b, selection') /\
    List.map Node.erase_names selection' = List.map Node.erase_names selection /\
    (b = true <-> selection' <> selection) /\
    (stable unicodeUpper generateName setName options ->
     completes (renameLayersInSelection unicodeUpper generateName setName selection' options)
               (false, selection')).
Proof.
  destruct (selection_results unicodeUpper generateName setName options selection)
    as (rs & Hrs).
  assert (Hruns : Forall2
                    (fun node r =>
                       completes (renameNodeAndChildren unicodeUpper generateName setName
                                                        node options) r)
                    selection rs).
  { eapply Forall2_impl; [exact Hrs|]. simpl. tauto. }
  assert (Hfaith : Forall2 faithful_result selection rs).
  { eapply Forall2_impl; [exact Hrs|]. simpl. tauto. }
  exists (existsb fst rs), (List.map snd rs).
  split; [apply renameLayersInSelection_completes, Hruns|].
  split; [apply Forall2_faithful_erase, Hfaith|]. split.
  - split.
    + apply Forall2_faithful_changed, Hfaith.
    + intros Hne. destruct (existsb fst rs) eqn:E; [reflexivity|].
      destruct (Hne (Forall2_faithful_unchanged _ _ Hfaith E)).
  - intros Hblind.
    pose proof (renameLayersInSelection_completes unicodeUpper generateName setName
                  options (List.map snd rs)
                  (List.map (fun r : bool * SceneNode => (false, snd r)) rs))
      as Hagain.
    destruct (again_results rs) as [Hflag Hnodes].
    rewrite Hflag, Hnodes in Hagain. apply Hagain.
    apply (Forall2_again unicodeUpper generateName setName options selection).
    eapply Forall2_impl; [exact Hruns|]. simpl. intros node r Hr.
    exact (renameNodeAndChildren_again unicodeUpper generateName setName options
             Hblind node r Hr).
Qed.

(** A strategy that does not look at names, with a host that does not
    either, is stable. *)
Lemma name_blind_stable unicodeUpper generateName setName options :
  name_blind generateName -> assignment_blind setName ->
  stable unicodeUpper generateName setName options.
Proof.
  intros Hg Ha node node' He _ _ Hn (s & Hs & Hne & Hset).
  unfold name_after in Hn.
  rewrite (Hg node node' options He), Hs in Hn.
  rewrite (Ha node node' s He), Hset in Hn. congruence.
Qed.

(** A strategy that proposes the current name is stable, for every host. *)
Lemma currentNameStrategy_stable unicodeUpper setName options :
  stable unicodeUpper currentNameStrategy setName options.
Proof.
  intros node node' _ _ _ _ (s & Hs & Hne & _).
  unfold currentNameStrategy in Hs. congruence.
Qed.

Lemma kindStrategy_blind : name_blind kindStrategy.
Proof.
  intros n n' o He. unfold kindStrategy.
  destruct (erase_names_fields n n' He) as (-> & _). reflexivity.
Qed.

Lemma kindStrategy_stable :
  stable plainUpper kindStrategy alwaysAssigns defaultOptions.
Proof.
  apply name_blind_stable; [exact kindStrategy_blind|].
  intros n n' s _. reflexivity.
Qed.

Lemma C3_second_run_is_noop_witness :
  stable plainUpper kindStrategy alwaysAssigns defaultOptions /\
  exists selection',
    completes (renameLayersInSelection plainUpper kindStrategy alwaysAssigns
                                       [frameWithChildren] defaultOptions)
              (true, selection') /\
    selection' <> [frameWithChildren] /\
    completes (renameLayersInSelection plainUpper kindStrategy alwaysAssigns
                                       selection' defaultOptions)
              (false, selection').
Proof.
  split; [exact kindStrategy_stable|].
  destruct (C3_second_run_is_noop plainUpper kindStrategy alwaysAssigns [frameWithChildren]
              defaultOptions)
    as (b & selection' & Hfirst & _ & Hflag & Hsecond).
  specialize (Hsecond kindStrategy_stable).
  assert (Hb : b = true).
  { assert (Hrun : exists s,
               completes (renameLayersInSelection plainUpper kindStrategy alwaysAssigns
                            [frameWithChildren] defaultOptions) (true, s))
      by (eexists; vm_compute; reflexivity).
    destruct Hrun as (s & Hrun).
    pose proof (completes_inj _ _ _ Hfirst Hrun) as Heq.
    injection Heq as -> _. reflexivity. }
  subst b. exists selection'.
  split; [exact Hfirst|]. split; [apply Hflag; reflexivity | exact Hsecond].
Defined.

(* ===================================================================== *)
(** * Further properties of the registry and of the classifier *)
(* ===================================================================== *)

Lemma ALL_FIGMA_NODE_TYPES_upper type :
  In type ALL_FIGMA_NODE_TYPES -> List.map ascii_upper type = type.
Proof.
  assert (H : forallb (fun t => bool_decide (List.map ascii_upper t = t))
                      ALL_FIGMA_NODE_TYPES = true)
    by (vm_compute; reflexivity).
  rewrite forallb_forall in H. intros Hin.
  specialize (H type Hin). apply bool_decide_eq_true in H. exact H.
Qed.

(** X1.  The kind registry answers true exactly for the 27 literals, which
    are distinct and written in upper case: a tag that differs from a valid
    tag by the case of a letter is not valid. *)
Theorem X1_registry_is_exact type :
  (isValidFigmaNodeType type = true <-> In type ALL_FIGMA_NODE_TYPES) /\
  (NoDup ALL_FIGMA_NODE_TYPES /\ size validNodeTypeCache = 27%nat) /\
  (forall variant,
      isValidFigmaNodeType type = true ->
      List.map ascii_upper variant = type -> variant <> type ->
      isValidFigmaNodeType variant = false).
Proof.
  split; [apply isValidFigmaNodeType_In|]. split.
  - assert (Hnd : NoDup ALL_FIGMA_NODE_TYPES).
    { apply (proj1 (bool_decide_eq_true (NoDup ALL_FIGMA_NODE_TYPES))).
      vm_compute. reflexivity. }
    split; [exact Hnd|].
    unfold validNodeTypeCache. rewrite size_list_to_set by exact Hnd.
    reflexivity.
  - intros variant _ Hup Hne.
    destruct (isValidFigmaNodeType variant) eqn:E; [|reflexivity].
    apply isValidFigmaNodeType_In, ALL_FIGMA_NODE_TYPES_upper in E.
    congruence.
Qed.

Lemma X1_registry_is_exact_witness :
  isValidFigmaNodeType (js "FRAME") = true /\
  isValidFigmaNodeType (js "Frame") = false.
Proof.
  assert (Hv : isValidFigmaNodeType (js "FRAME") = true)
    by (vm_compute; reflexivity).
  split; [exact Hv|].
  destruct (X1_registry_is_exact (js "FRAME")) as (_ & _ & Hcase).
  apply Hcase; [exact Hv | reflexivity|].
  intros H. vm_compute in H. discriminate.
Defined.

(** X2.  The host-name check [isFigmaGeneratedName] answers true exactly for
    the names that equal, up to the case of the letters A-Z, a kind literal
    or a boolean-operation label, and for the names word, space, number;
    every other name is rejected. *)
Theorem X2_host_name_check_is_exact unicodeUpper name :
  isFigmaGeneratedName unicodeUpper name = true <->
  ci_host_literal name \/ word_number_shape name.
Proof. apply isFigmaGeneratedName_spec. Qed.

(** ** Case of the letters *)

Lemma ascii_lower_idempotent c : ascii_lower (ascii_lower c) = ascii_lower c.
Proof.
  unfold ascii_lower.
  destruct (N.leb_spec 0x41 c), (N.leb_spec c 0x5A); simpl;
    repeat match goal with
           | |- context [?a <=? ?b] => destruct (N.leb_spec a b)
           end; simpl; lia.
Qed.

Lemma letter_range_classes c :
  0x41 <= c <= 0x7A -> is_space c = false /\ is_digit c = false.
Proof.
  intros Hc. unfold is_space, is_digit.
  repeat match goal with
         | |- context [?a =? ?b] => destruct (N.eqb_spec a b); [lia|]
         | |- context [?a <=? ?b] => destruct (N.leb_spec a b)
         end; simpl; try lia; auto.
Qed.

Lemma ascii_lower_classes c :
  is_space (ascii_lower c) = is_space c /\
  is_digit (ascii_lower c) = is_digit c.
Proof.
  unfold ascii_lower.
  destruct (N.leb_spec 0x41 c), (N.leb_spec c 0x5A); simpl; auto.
  destruct (letter_range_classes c) as [-> ->]; [lia|].
  destruct (letter_range_classes (c + 0x20)) as [-> ->]; [lia|]. auto.
Qed.

Lemma Forall_class_lower (p : N -> bool) (v : bool) l :
  (forall c, p (ascii_lower c) = p c) ->
  Forall (fun c => p c = v) (List.map ascii_lower l) <->
  Forall (fun c => p c = v) l.
Proof.
  intros Hp. rewrite List.Forall_map. split; apply List.Forall_impl;
    intros c; rewrite Hp; auto.
Qed.

Lemma word_number_shape_lower name :
  word_number_shape (List.map ascii_lower name) <-> word_number_shape name.
Proof.
  assert (Hs : forall c, is_space (ascii_lower c) = is_space c)
    by (intros c; apply ascii_lower_classes).
  assert (Hd : forall c, is_digit (ascii_lower c) = is_digit c)
    by (intros c; apply ascii_lower_classes).
  unfold word_number_shape, number. split.
  - intros (w & sp & d & Heq & Hw & Hws & Hsp & Hd1 & Hd2).
    apply map_eq_app in Heq as (w' & rest & -> & <- & Hrest).
    apply map_eq_cons in Hrest as (sp' & d' & -> & <- & <-).
    exists w', sp', d'. split; [reflexivity|].
    split; [intros ->; apply Hw; reflexivity|].
    split; [apply (Forall_class_lower is_space false w' Hs), Hws|].
    split; [rewrite <- Hs; exact Hsp|].
    split; [intros ->; apply Hd1; reflexivity|].
    apply (Forall_class_lower is_digit true d' Hd), Hd2.
  - intros (w & sp & d & -> & Hw & Hws & Hsp & Hd1 & Hd2).
    exists (List.map ascii_lower w), (ascii_lower sp), (List.map ascii_lower d).
    split; [rewrite map_app; reflexivity|].
    split; [destruct w; [congruence | discriminate]|].
    split; [apply (Forall_class_lower is_space false w Hs), Hws|].
    split; [rewrite Hs; exact Hsp|].
    split; [destruct d; [congruence | discriminate]|].
    apply (Forall_class_lower is_digit true d Hd), Hd2.
Qed.

Lemma ci_host_literal_lower name :
  ci_host_literal (List.map ascii_lower name) <-> ci_host_literal name.
Proof.
  unfold ci_host_literal, ci_equal. rewrite map_map.
  rewrite (map_ext _ ascii_lower ascii_lower_idempotent). reflexivity.
Qed.

(** X3.  The host-name check does not look at the case of the letters A-Z:
    two names that are equal up to that case get the same answer.  (The
    classifier as a whole does: the plugin pattern is matched with case.) *)
Theorem X3_host_name_check_ignores_case unicodeUpper a b :
  ci_equal a b ->
  isFigmaGeneratedName unicodeUpper a = isFigmaGeneratedName unicodeUpper b.
Proof.
  intros Hci. apply eq_iff_eq_true.
  rewrite !isFigmaGeneratedName_spec.
  rewrite <- (ci_host_literal_lower a), <- (word_number_shape_lower a).
  rewrite <- (ci_host_literal_lower b), <- (word_number_shape_lower b).
  unfold ci_equal in Hci. rewrite Hci. reflexivity.
Qed.

Lemma X3_host_name_check_ignores_case_witness :
  isFigmaGeneratedName plainUpper (js "RECTANGLE 12")
  = isFigmaGeneratedName plainUpper (js "rectangle 12").
Proof.
  apply (X3_host_name_check_ignores_case plainUpper). reflexivity.
Defined.

(** X4.  The classifier never throws.  It warns once, and answers false,
    for a node of an unknown kind; for a node of a valid kind it is silent;
    so it answers true for nodes of valid kinds only. *)
Theorem X4_classifier_warns_on_unknown_kinds_only unicodeUpper node :
  exists b,
    completes (isFigmaOrPluginGeneratedName unicodeUpper node) b /\
    (In (Node.type node) ALL_FIGMA_NODE_TYPES ->
     events (isFigmaOrPluginGeneratedName unicodeUpper node) = []) /\
    (~ In (Node.type node) ALL_FIGMA_NODE_TYPES ->
     b = false /\
     events (isFigmaOrPluginGeneratedName unicodeUpper node)
     = [console_warn (Node.type node)]) /\
    (b = true -> In (Node.type node) ALL_FIGMA_NODE_TYPES).
Proof.
  destruct (classifier_returns unicodeUpper node) as (b & Hb).
  exists b. rewrite Hb. unfold completes, events. cbn [fst snd].
  split; [reflexivity|].
  destruct (isValidFigmaNodeType (Node.type node)) eqn:Hv.
  - apply isValidFigmaNodeType_In in Hv.
    split; [auto|]. split; [intros Hn; destruct (Hn Hv) | auto].
  - pose proof Hv as Hnot. apply isValidFigmaNodeType_not_In in Hnot.
    rewrite (classifier_invalid unicodeUpper node Hv) in Hb.
    injection Hb as <-.
    split; [intros Hin; destruct (Hnot Hin)|]. split; [auto | discriminate].
Qed.

Lemma X4_classifier_warns_on_unknown_kinds_only_witness :
  events (isFigmaOrPluginGeneratedName plainUpper unknownKindNode)
  = [console_warn (js "HOLOGRAM")] /\
  events (isFigmaOrPluginGeneratedName plainUpper (leaf "1:2" "FRAME" "Thing"))
  = [].
Proof.
  assert (Hn : ~ In (Node.type unknownKindNode) ALL_FIGMA_NODE_TYPES).
  { intros H. vm_compute in H. intuition discriminate. }
  assert (Hv : In (Node.type (leaf "1:2" "FRAME" "Thing")) ALL_FIGMA_NODE_TYPES).
  { vm_compute. tauto. }
  split.
  - destruct (X4_classifier_warns_on_unknown_kinds_only plainUpper unknownKindNode)
      as (b & _ & _ & Hunknown & _).
    destruct (Hunknown Hn) as [_ He]. exact He.
  - destruct (X4_classifier_warns_on_unknown_kinds_only plainUpper
                (leaf "1:2" "FRAME" "Thing")) as (b & _ & Hvalid & _).
    exact (Hvalid Hv).
Defined.

(** X5.  A plugin token followed by an index suffix is recognised by the
    plugin pattern alone: the host-name check rejects it.  So such a name is
    generated on the generic kinds, and is not on COMPONENT and
    COMPONENT_SET nodes, where the plugin pattern is not asked. *)
Theorem X5_suffixed_plugin_names unicodeUpper node token suffix :
  In token PLUGIN_GENERATED_NAMES ->
  index_suffix suffix ->
  Node.name node = token ++ suffix ->
  test PLUGIN_NAME_PATTERN (Node.name node) = true /\
  isFigmaGeneratedName unicodeUpper (Node.name node) = false /\
  (generic_kind (Node.type node) ->
   isFigmaOrPluginGeneratedName unicodeUpper node = ret true) /\
  (Node.type node = js "COMPONENT" \/ Node.type node = js "COMPONENT_SET" ->
   isFigmaOrPluginGeneratedName unicodeUpper node = ret false).
Proof.
  intros Htok Hsuf Hname.
  assert (Hplugin : test PLUGIN_NAME_PATTERN (Node.name node) = true).
  { apply PLUGIN_NAME_PATTERN_spec. exists token. split; [exact Htok|].
    right. exists suffix. auto. }
  destruct (index_suffix_body _ Hsuf) as (body & Hbody & _).
  assert (Hshape : ~ word_number_shape (Node.name node)).
  { rewrite Hname, Hbody.
    replace (token ++ [0x2D; 0x5B] ++ body ++ [0x5D])
      with ((token ++ [0x2D; 0x5B] ++ body) ++ [0x5D])
      by (rewrite <- ?app_assoc; reflexivity).
    apply closing_bracket_not_word_number. }
  assert (Hhost : isFigmaGeneratedName unicodeUpper (Node.name node) = false).
  { destruct (isFigmaGeneratedName unicodeUpper (Node.name node)) eqn:E;
      [|reflexivity].
    apply isFigmaGeneratedName_spec in E as [E|E]; [|contradiction].
    exfalso. apply (bracket_not_ci_host_literal (Node.name node)); [|exact E].
    rewrite Hname, Hbody, in_app_iff. right. simpl. auto. }
  split; [exact Hplugin|]. split; [exact Hhost|]. split.
  - intros Hk. rewrite (classifier_generic unicodeUpper node Hk), Hhost, Hplugin.
    reflexivity.
  - intros Hk. rewrite (classifier_component unicodeUpper node Hk).
    rewrite <- figmaNameWithNumberRegex_spec in Hshape.
    destruct (test figmaNameWithNumberRegex (Node.name node));
      [congruence | reflexivity].
Qed.

Lemma X5_suffixed_plugin_names_witness :
  isFigmaOrPluginGeneratedName plainUpper (leaf "1:14" "FRAME" "grid-[2, 3]")
  = ret true /\
  isFigmaOrPluginGeneratedName plainUpper (leaf "1:15" "COMPONENT" "grid-[2, 3]")
  = ret false.
Proof.
  assert (Htok : In (js "grid") PLUGIN_GENERATED_NAMES) by (vm_compute; tauto).
  assert (Hsuf : index_suffix (js "-[2, 3]")).
  { right. exists (js "2"), (js " "), (js "3").
    split; [split; [discriminate | repeat constructor]|].
    split; [repeat constructor|].
    split; [split; [discriminate | repeat constructor] | reflexivity]. }
  assert (Hk : generic_kind (Node.type (leaf "1:14" "FRAME" "grid-[2, 3]")))
    by kind_by_computation.
  split.
  - destruct (X5_suffixed_plugin_names plainUpper (leaf "1:14" "FRAME" "grid-[2, 3]")
                (js "grid") (js "-[2, 3]") Htok Hsuf eq_refl)
      as (_ & _ & Hgeneric & _).
    exact (Hgeneric Hk).
  - destruct (X5_suffixed_plugin_names plainUpper
                (leaf "1:15" "COMPONENT" "grid-[2, 3]")
                (js "grid") (js "-[2, 3]") Htok Hsuf eq_refl)
      as (_ & _ & _ & Hcomponent).
    exact (Hcomponent (or_introl eq_refl)).
Defined.

(* ===================================================================== *)
(** * Further properties of the orchestrator *)
(* ===================================================================== *)

(** ** The events of a rename *)

Lemma events_bind_Forall {A B} (P : Event -> Prop) (m : Host A) (k : A -> Host B) :
  Forall P (events m) ->
  (forall a, Forall P (events (k a))) ->
  Forall P (events (bind m k)).
Proof.
  unfold events. destruct m as [[a|e|] l]; simpl; intros Hm Hk; try exact Hm.
  specialize (Hk a). destruct (k a) as [r l']. simpl in *.
  apply Forall_app. auto.
Qed.

Lemma Promise_all_map_events_Forall {A B} (P : Event -> Prop)
      (f : A -> Host B) xs :
  (forall x, In x xs -> Forall P (events (f x))) ->
  Forall P (events (Promise_all_map f xs)).
Proof.
  intros H. rewrite Promise_all_map_events.
  induction xs as [|x xs IH]; simpl; [constructor|].
  apply Forall_app. split; [apply H; left; reflexivity|].
  apply IH. intros y Hy. apply H. right. exact Hy.
Qed.

Section Events.
Variable unicodeUpper : N -> list N.
Variable generateName : NamingStrategy.
Variable setName : NameAssignment.
Variable options : AllOptions.

(** What a rename that does not reach the strategy reports: nothing, or the
    warning of the classifier about the kind of the node. *)
Lemma renameLayer_skip_events node :
  reaches_strategy unicodeUpper options node = false ->
  events (renameLayer unicodeUpper generateName setName node options) = [] \/
  (events (renameLayer unicodeUpper generateName setName node options)
   = [console_warn (Node.type node)] /\
   isValidFigmaNodeType (Node.type node) = false /\
   Options.renameCustomNames options = false).
Proof.
  unfold reaches_strategy, skipped_instance, renameLayer. intros H.
  destruct (Node.locked node && negb (Options.locked options)); [left; reflexivity|].
  destruct (negb (Node.visible node) && negb (Options.hidden options));
    [left; reflexivity|].
  destruct (str_eqb (Node.type node) (js "INSTANCE")
            && negb (Options.instance options)); [left; reflexivity|].
  simpl in H. apply orb_false_iff in H as [Hc Hg]. rewrite Hc. simpl negb.
  cbv iota. unfold generated in Hg.
  destruct (classifier_returns unicodeUpper node) as (b & Hb).
  rewrite Hb in Hg |- *. simpl in Hg. subst b.
  destruct (isValidFigmaNodeType (Node.type node)); [left; reflexivity|].
  right. split; [reflexivity | auto].
Qed.

Lemma renameLayer_accounted node :
  Forall (accounted_event generateName setName options)
         (events (renameLayer unicodeUpper generateName setName node options)).
Proof.
  assert (Hreport : forall e,
             (generateName node options = Rejected e \/
              exists newName, generateName node options = Fulfilled newName /\
                              setName node newName = Some e) ->
             Forall (accounted_event generateName setName options)
                    [console_error (Node.id node) e;
                     figma_notify (Node.name node)]).
  { intros e He.
    apply List.Forall_cons; [right; right; exists node, e; auto|].
    apply List.Forall_cons; [right; right; exists node, e; auto|].
    apply List.Forall_nil. }
  destruct (reaches_strategy unicodeUpper options node) eqn:Hr.
  - rewrite (renameLayer_attempt unicodeUpper generateName setName options node Hr).
    destruct (generateName node options) as [s|e] eqn:Hg.
    + destruct (str_eqb (Node.name node) s); [constructor|].
      destruct (setName node s) as [e|] eqn:Ha; [|constructor].
      apply Hreport. right. exists s. auto.
    + apply Hreport. left. reflexivity.
  - destruct (renameLayer_skip_events node Hr) as [-> | (-> & Hv & Hc)];
      [constructor|].
    apply List.Forall_cons; [|apply List.Forall_nil].
    right. left. exists (Node.type node). auto.
Qed.

(** What holds of the events of every rename holds of the events of a
    walk. *)
Lemma renameNodeAndChildren_events_Forall (P : Event -> Prop) :
  (forall n, Forall P (events (renameLayer unicodeUpper generateName setName n options))) ->
  forall node,
    Forall P (events (renameNodeAndChildren unicodeUpper generateName setName node options)).
Proof.
  intros HP node. induction node as [node IH] using SceneNode_children_ind.
  rewrite renameNodeAndChildren_unfold.
  destruct (skipped_instance options node); [constructor|].
  apply events_bind_Forall; [apply HP|]. intros [b renamed].
  destruct (Node.children node) as [cs|]; [|constructor].
  apply events_bind_Forall; [|intros rs; constructor].
  apply Promise_all_map_events_Forall. intros c Hc.
  specialize (IH cs eq_refl). rewrite List.Forall_forall in IH. apply IH, Hc.
Qed.

Lemma processBatchLoop_events_Forall (P : Event -> Prop) nodes fuel :
  P setTimeout0 ->
  (forall n, Forall P (events (renameLayer unicodeUpper generateName setName n options))) ->
  forall i hasRenamed,
    Forall P (events (processBatchLoop unicodeUpper generateName setName fuel i nodes
                                       options hasRenamed)).
Proof.
  intros Hpause HP. induction fuel as [|fuel IH]; intros i h; simpl;
    [constructor|].
  destruct (i <? length nodes)%nat; [|constructor].
  apply events_bind_Forall.
  { apply Promise_all_map_events_Forall. intros node _.
    apply renameNodeAndChildren_events_Forall, HP. }
  intros rs. apply events_bind_Forall.
  { destruct (i + batchSize <? length nodes)%nat; [|constructor].
    apply List.Forall_cons; [exact Hpause | apply List.Forall_nil]. }
  intros _. apply events_bind_Forall; [apply IH|].
  intros [h' rest]. constructor.
Qed.

Lemma renameLayersInSelection_events_eq selection :
  events (renameLayersInSelection unicodeUpper generateName setName selection options)
  = events (processBatchNodes unicodeUpper generateName setName selection options).
Proof.
  unfold renameLayersInSelection, events.
  destruct (processBatchNodes unicodeUpper generateName setName selection options)
    as [[x|e|] l]; reflexivity.
Qed.

Lemma renameLayersInSelection_events_Forall (P : Event -> Prop) selection :
  P setTimeout0 ->
  (forall n, Forall P (events (renameLayer unicodeUpper generateName setName n options))) ->
  Forall P (events (renameLayersInSelection unicodeUpper generateName setName
                                            selection options)).
Proof.
  intros Hpause HP. rewrite renameLayersInSelection_events_eq.
  apply processBatchLoop_events_Forall; assumption.
Qed.

End Events.

(** X6.  The rename of one node never throws, whatever the strategy and
    the host do.  It returns true exactly when it changed the node, which is
    exactly when the node passes the gates, the strategy proposes a name the
    node has not and the host takes the assignment; nothing but the name
    changes.  It reports an error, naming the node in the error and in the
    notification, exactly when the node passes the gates and the strategy
    fails, or proposes another name whose assignment fails. *)
Theorem X6_renameLayer_outcome unicodeUpper generateName setName node options :
  exists b node',
    completes (renameLayer unicodeUpper generateName setName node options)
              (b, node') /\
    (b = true <-> node' <> node) /\
    (b = true <->
     reaches_strategy unicodeUpper options node = true /\
     exists newName, generateName node options = Fulfilled newName /\
                     newName <> Node.name node /\
                     setName node newName = None /\
                     node' = Node.set_name node newName) /\
    (forall e,
        reaches_strategy unicodeUpper options node = true /\
        (generateName node options = Rejected e \/
         exists newName, generateName node options = Fulfilled newName /\
                         newName <> Node.name node /\
                         setName node newName = Some e) <->
        events (renameLayer unicodeUpper generateName setName node options)
        = [console_error (Node.id node) e; figma_notify (Node.name node)]).
Proof.
  destruct (reaches_strategy unicodeUpper options node) eqn:Hr.
  - rewrite (renameLayer_attempt unicodeUpper generateName setName options node Hr).
    destruct (generateName node options) as [s|e0].
    + destruct (str_eqb (Node.name node) s) eqn:E.
      * apply str_eqb_true in E.
        exists false, node. split; [reflexivity|].
        split; [split; [discriminate | congruence]|].
        split; [split; [discriminate|]|].
        { intros (_ & s' & Hs & Hne & _). injection Hs as <-. congruence. }
        intros e. split; [|discriminate].
        intros [_ [H | (s' & Hs & Hne & _)]]; [discriminate|].
        injection Hs as <-. congruence.
      * apply str_eqb_false in E.
        destruct (setName node s) as [e1|] eqn:Ha.
        { exists false, node. split; [reflexivity|].
          split; [split; [discriminate | congruence]|].
          split; [split; [discriminate|]|].
          { intros (_ & s' & Hs & _ & Hset & _). injection Hs as <-. congruence. }
          intros e. split.
          - intros [_ [H | (s' & Hs & _ & Hset)]]; [discriminate|].
            injection Hs as <-. rewrite Ha in Hset. injection Hset as <-.
            reflexivity.
          - intros H. injection H as <-. split; [reflexivity|].
            right. exists s. auto. }
        exists true, (Node.set_name node s). split; [reflexivity|].
        split.
        { split; [|reflexivity]. intros _ H.
          apply (f_equal Node.name) in H. simpl in H. congruence. }
        split.
        { split; [|reflexivity]. intros _. split; [reflexivity|].
          exists s. auto. }
        intros e. split; [|discriminate].
        intros [_ [H | (s' & Hs & _ & Hset)]]; [discriminate|].
        injection Hs as <-. congruence.
    + exists false, node. split; [reflexivity|].
      split; [split; [discriminate | congruence]|].
      split.
      { split; [discriminate|]. intros (_ & s' & Hs & _). discriminate. }
      intros e. split.
      * intros [_ [H | (s' & Hs & _)]]; [|discriminate].
        injection H as <-. reflexivity.
      * intros H. injection H as <-. auto.
  - destruct (renameLayer_skip unicodeUpper generateName setName options node Hr)
      as (l & Hl).
    pose proof (renameLayer_skip_events unicodeUpper generateName setName options
                  node Hr) as Hev.
    exists false, node. rewrite Hl in *. split; [reflexivity|].
    split; [split; [discriminate | congruence]|].
    split; [split; [discriminate | intros [H _]; discriminate]|].
    intros e. split; [intros [H _]; discriminate|].
    intros H. destruct Hev as [Hev | (Hev & _)]; rewrite Hev in H; discriminate.
Qed.

(** The assignment that fails ends at the node, like a failing strategy. *)
Lemma X6_renameLayer_outcome_witness :
  events (renameLayer plainUpper (constantStrategy "layer") neverAssigns
                      (leaf "1:2" "FRAME" "Frame") defaultOptions)
  = [console_error (js "1:2") (js "read-only"); figma_notify (js "Frame")].
Proof.
  assert (Hne : js "layer" <> Node.name (leaf "1:2" "FRAME" "Frame")).
  { intros H. vm_compute in H. discriminate. }
  destruct (X6_renameLayer_outcome plainUpper (constantStrategy "layer")
              neverAssigns (leaf "1:2" "FRAME" "Frame") defaultOptions)
    as (b & node' & _ & _ & _ & Hevents).
  apply (Hevents (js "read-only")). split; [reflexivity|].
  right. exists (js "layer"). split; [reflexivity|]. split; [exact Hne|].
  reflexivity.
Defined.

(** X10.  Every event of a run is accounted for: it is a pause between two
    batches, the warning about an unknown kind (only while custom names are
    kept), or the report of a rename that failed, the call of the strategy
    or the assignment of the proposed name having failed.  So a run with a
    strategy that never fails, on a host that takes every assignment,
    reports no error, and a run that renames custom names never warns. *)
Theorem X10_events_of_a_run unicodeUpper generateName setName selection options :
  Forall (accounted_event generateName setName options)
         (events (renameLayersInSelection unicodeUpper generateName setName
                                          selection options)) /\
  ((forall node o, exists newName, generateName node o = Fulfilled newName) ->
   (forall node newName, setName node newName = None) ->
   forall e,
     In e (events (renameLayersInSelection unicodeUpper generateName setName
                                           selection options)) ->
     (forall id error, e <> console_error id error) /\
     (forall name, e <> figma_notify name)) /\
  (Options.renameCustomNames options = true ->
   forall e,
     In e (events (renameLayersInSelection unicodeUpper generateName setName
                                           selection options)) ->
     forall type, e <> console_warn type).
Proof.
  assert (Hall : Forall (accounted_event generateName setName options)
                   (events (renameLayersInSelection unicodeUpper generateName
                                                    setName selection options))).
  { apply renameLayersInSelection_events_Forall.
    - left. reflexivity.
    - intros n. apply renameLayer_accounted. }
  split; [exact Hall|]. rewrite List.Forall_forall in Hall. split.
  - intros Hok Hassign e He.
    destruct (Hall e He) as [-> | [(t & -> & _) | (n & err & Hfail & _)]].
    + split; discriminate.
    + split; discriminate.
    + destruct Hfail as [Hrej | (s & _ & Hset)].
      * destruct (Hok n options) as (s & Hs). congruence.
      * rewrite Hassign in Hset. discriminate.
  - intros Hcustom e He.
    destruct (Hall e He) as [-> | [(t & -> & _ & Hc) | (n & err & _ & [-> | ->])]];
      try discriminate.
    congruence.
Qed.

Lemma X10_events_of_a_run_witness :
  events (renameLayersInSelection plainUpper (constantStrategy "layer")
                                  alwaysAssigns [unknownKindNode]
                                  customNamesOptions) = [] /\
  forall e,
    In e (events (renameLayersInSelection plainUpper (constantStrategy "layer")
                                          alwaysAssigns tenNodes defaultOptions)) ->
    forall name, e <> figma_notify name.
Proof.
  split; [reflexivity|].
  assert (Hok : forall node o,
             exists newName, constantStrategy "layer" node o = Fulfilled newName).
  { intros node o. eexists. reflexivity. }
  assert (Hassign : forall node newName, alwaysAssigns node newName = None).
  { reflexivity. }
  destruct (X10_events_of_a_run plainUpper (constantStrategy "layer")
              alwaysAssigns tenNodes defaultOptions) as (_ & Hnoerror & _).
  intros e He. exact (proj2 (Hnoerror Hok Hassign e He)).
Defined.

(** ** The changes of a run *)

Lemma changes_all_cons c l c' l' :
  changes_all (c :: l) (c' :: l') = changes c c' ++ changes_all l l'.
Proof. reflexivity. Qed.

Lemma changes_unfold before after :
  changes before after =
  (if str_eqb (Node.name before) (Node.name after) then []
   else [(before, Node.name after)])
  ++ match Node.children before, Node.children after with
     | Some cs, Some cs' => changes_all cs cs'
     | _, _ => []
     end.
Proof.
  destruct before as [i n t l v a cs], after as [i' n' t' l' v' a' cs'].
  cbn [changes Node.name Node.children]. f_equal.
  destruct cs as [cs|], cs' as [cs'|]; try reflexivity.
  revert cs'. induction cs as [|c cs IH]; intros [|c' cs']; try reflexivity.
  rewrite changes_all_cons, <- IH. reflexivity.
Qed.

Lemma changes_same node : changes node node = [].
Proof.
  induction node as [node IH] using SceneNode_children_ind.
  rewrite changes_unfold, str_eqb_refl. simpl.
  destruct (Node.children node) as [cs|]; [|reflexivity].
  specialize (IH cs eq_refl).
  induction IH as [|c cs Hc _ IHcs]; [reflexivity|].
  rewrite changes_all_cons, Hc, IHcs. reflexivity.
Qed.

Lemma changes_all_nil l :
  Forall (fun c => forall c', Node.erase_names c = Node.erase_names c' ->
                              changes c c' = [] -> c = c') l ->
  forall l', List.map Node.erase_names l = List.map Node.erase_names l' ->
             changes_all l l' = [] -> l = l'.
Proof.
  induction 1 as [|c l Hc _ IH]; intros [|c' l'] He Hch; try discriminate;
    [reflexivity|].
  simpl in He. injection He as He1 He2.
  rewrite changes_all_cons in Hch. apply app_eq_nil in Hch as [H1 H2].
  rewrite (Hc c' He1 H1), (IH l' He2 H2). reflexivity.
Qed.

(** The list of changes is a faithful difference: two subtrees that differ
    in names only and show no change are equal. *)
Lemma changes_nil node :
  forall node', Node.erase_names node = Node.erase_names node' ->
                changes node node' = [] -> node = node'.
Proof.
  induction node as [node IH] using SceneNode_children_ind.
  intros node' He Hch. rewrite changes_unfold in Hch.
  apply app_eq_nil in Hch as [Hown Hrest].
  assert (Hname : Node.name node = Node.name node').
  { destruct (str_eqb (Node.name node) (Node.name node')) eqn:E;
      [apply str_eqb_true, E | discriminate]. }
  destruct node as [i n t l v a cs], node' as [i' n' t' l' v' a' cs'].
  simpl in *. injection He as -> -> -> -> -> Hcs. subst n'.
  destruct cs as [cs|], cs' as [cs'|]; try discriminate; [|reflexivity].
  simpl in Hcs. injection Hcs as Hcs.
  rewrite (changes_all_nil cs (IH cs eq_refl) cs' Hcs Hrest). reflexivity.
Qed.

Lemma changes_all_Forall (Qc : SceneNode -> SceneNode * jsstring -> Prop)
      (Qn : SceneNode * jsstring -> Prop) cs (rs : list (bool * SceneNode)) :
  Forall2 (fun c r => Forall (Qc c) (changes c (snd r))) cs rs ->
  (forall c e, In c cs -> Qc c e -> Qn e) ->
  Forall Qn (changes_all cs (List.map snd rs)).
Proof.
  induction 1 as [|c r cs rs Hc _ IH]; intros Hlift; [constructor|].
  simpl List.map. rewrite changes_all_cons. apply Forall_app. split.
  - eapply List.Forall_impl; [|exact Hc]. intros e. apply Hlift. left. reflexivity.
  - apply IH. intros c0 e Hin. apply Hlift. right. exact Hin.
Qed.

Lemma reaches_strategy_gates unicodeUpper options node :
  reaches_strategy unicodeUpper options node = true ->
  (Node.locked node = true -> Options.locked options = true) /\
  (Node.visible node = false -> Options.hidden options = true) /\
  (Node.type node = js "INSTANCE" -> Options.instance options = true) /\
  (Options.renameCustomNames options = false ->
   isFigmaOrPluginGeneratedName unicodeUpper node = ret true).
Proof.
  unfold reaches_strategy, skipped_instance. intros H.
  apply andb_true_iff in H as [H Hcustom].
  apply andb_true_iff in H as [H Hinst].
  apply andb_true_iff in H as [Hlock Hvis].
  split; [|split; [|split]].
  - intros E. rewrite E in Hlock. destruct (Options.locked options);
      [reflexivity | discriminate].
  - intros E. rewrite E in Hvis. destruct (Options.hidden options);
      [reflexivity | discriminate].
  - intros E. rewrite E, str_eqb_refl in Hinst.
    destruct (Options.instance options); [reflexivity | discriminate].
  - intros E. rewrite E in Hcustom. simpl in Hcustom.
    apply generated_true_silent, Hcustom.
Qed.

Section Changes.
Variable unicodeUpper : N -> list N.
Variable generateName : NamingStrategy.
Variable setName : NameAssignment.
Variable options : AllOptions.

(** Every change of a walk is the change of a node that the walk reaches
    and that passes the gates, to the name proposed for it. *)
Lemma renameNodeAndChildren_changes node :
  exists r,
    completes (renameNodeAndChildren unicodeUpper generateName setName node options) r /\
    faithful_result node r /\
    Forall (fun change =>
              walk_reaches options node (fst change) /\
              reaches_strategy unicodeUpper options (fst change) = true /\
              generateName (fst change) options = Fulfilled (snd change) /\
              snd change <> Node.name (fst change))
           (changes node (snd r)).
Proof.
  induction node as [node IH] using SceneNode_children_ind.
  destruct (renameNodeAndChildren_faithful unicodeUpper generateName setName options node)
    as (r0 & Hr0 & Hf0).
  exists r0. split; [exact Hr0|]. split; [exact Hf0|].
  destruct (skipped_instance options node) eqn:Hs.
  { rewrite (renameNodeAndChildren_skipped _ _ _ _ node Hs) in Hr0.
    pose proof (completes_inj _ _ _ Hr0 (completes_ret (false, node))) as ->.
    simpl. rewrite changes_same. constructor. }
  destruct (renameLayer_returns unicodeUpper generateName setName options node)
    as (b & renamed & Hl & Hfalse & Htrue).
  assert (Hown :
            Node.children renamed = Node.children node /\
            Forall (fun change =>
                      walk_reaches options node (fst change) /\
                      reaches_strategy unicodeUpper options (fst change) = true /\
                      generateName (fst change) options = Fulfilled (snd change) /\
                      snd change <> Node.name (fst change))
                   (if str_eqb (Node.name node) (Node.name renamed) then []
                    else [(node, Node.name renamed)])).
  { destruct b.
    - destruct (Htrue eq_refl) as (s & Hne & -> & Hg & Hr & _).
      split; [reflexivity|]. simpl.
      destruct (str_eqb (Node.name node) s); [constructor|].
      apply List.Forall_cons; [|apply List.Forall_nil]. simpl.
      split; [apply walk_here, Hs | auto].
    - rewrite (Hfalse eq_refl), str_eqb_refl. split; [reflexivity | constructor]. }
  destruct Hown as [Hchildren Hown].
  destruct (Node.children node) as [cs|] eqn:Hc.
  - destruct (Promise_all_map_completes
                (fun child =>
                   renameNodeAndChildren unicodeUpper generateName setName child options)
                (fun c r =>
                   Forall (fun change =>
                             walk_reaches options c (fst change) /\
                             reaches_strategy unicodeUpper options (fst change) = true /\
                             generateName (fst change) options
                             = Fulfilled (snd change) /\
                             snd change <> Node.name (fst change))
                          (changes c (snd r)))
                cs) as (rs & Hrs & Hch).
    { specialize (IH cs eq_refl). eapply Forall_impl; [exact IH|].
      simpl. intros c (r & Hr & _ & Hq). eauto. }
    pose proof (renameNodeAndChildren_inner unicodeUpper generateName setName options
                  node cs b renamed rs Hs Hc Hl Hrs) as Hnode.
    pose proof (completes_inj _ _ _ Hr0 Hnode) as ->. cbn [snd].
    rewrite changes_unfold, Hc.
    replace (Node.name (Node.with_children renamed (List.map snd rs)))
      with (Node.name renamed) by (destruct renamed; reflexivity).
    replace (Node.children (Node.with_children renamed (List.map snd rs)))
      with (Some (List.map snd rs)) by (destruct renamed; reflexivity).
    apply Forall_app. split; [exact Hown|].
    eapply changes_all_Forall; [exact Hch|].
    intros c e Hin (Hw & Hrest). split; [|exact Hrest].
    exact (walk_child options node cs c (fst e) Hs Hc Hin Hw).
  - pose proof (renameNodeAndChildren_leaf unicodeUpper generateName setName options
                  node b renamed Hs Hc Hl) as Hnode.
    pose proof (completes_inj _ _ _ Hr0 Hnode) as ->. cbn [snd].
    rewrite changes_unfold, Hc, app_nil_r. exact Hown.
Qed.

Lemma selection_changes selection :
  exists rs,
    Forall2 (fun node r =>
               completes (renameNodeAndChildren unicodeUpper generateName setName
                                                node options) r) selection rs /\
    Forall2 faithful_result selection rs /\
    Forall2 (fun node r =>
               Forall (fun change =>
                         walk_reaches options node (fst change) /\
                         reaches_strategy unicodeUpper options (fst change) = true /\
                         generateName (fst change) options
                         = Fulfilled (snd change) /\
                         snd change <> Node.name (fst change))
                      (changes node (snd r))) selection rs.
Proof.
  induction selection as [|node selection (rs & H1 & H2 & H3)].
  - exists []. repeat split; constructor.
  - destruct (renameNodeAndChildren_changes node) as (r & Hr & Hf & Hc).
    exists (r :: rs). repeat split; constructor; assumption.
Qed.

End Changes.

Lemma faithful_changes_all_nil selection rs :
  Forall2 faithful_result selection rs ->
  changes_all selection (List.map snd rs) = [] ->
  List.map snd rs = selection.
Proof.
  induction 1 as [|node r selection rs (He & _ & _) _ IH]; [reflexivity|].
  simpl List.map. rewrite changes_all_cons. intros H.
  apply app_eq_nil in H as [H1 H2].
  rewrite (IH H2). f_equal. symmetry. apply changes_nil; [symmetry; exact He|].
  exact H1.
Qed.

(** X7.  A run changes a name only where it may and only to what the
    strategy proposed.  Every change, at any depth, is the change of a node
    that the walk of a root reaches with no skipped instance above it; that
    is not locked unless [options.locked], not invisible unless
    [options.hidden], no instance unless [options.instance]; whose name the
    classifier accepts unless [options.renameCustomNames]; and the new name
    is the proposal of the strategy for that node, which differs from its
    name.  The changes are all the difference: without a change the
    selection is as it was. *)
Theorem X7_changes_of_a_run unicodeUpper generateName setName selection options :
  exists b selection',
    completes (renameLayersInSelection unicodeUpper generateName setName selection options)
              (b, selection') /\
    Forall (fun change =>
              (exists root, In root selection /\
                            walk_reaches options root (fst change)) /\
              (Node.locked (fst change) = true -> Options.locked options = true) /\
              (Node.visible (fst change) = false ->
               Options.hidden options = true) /\
              (Node.type (fst change) = js "INSTANCE" ->
               Options.instance options = true) /\
              (Options.renameCustomNames options = false ->
               isFigmaOrPluginGeneratedName unicodeUpper (fst change) = ret true) /\
              generateName (fst change) options = Fulfilled (snd change) /\
              snd change <> Node.name (fst change))
           (changes_all selection selection') /\
    (changes_all selection selection' = [] -> selection' = selection).
Proof.
  destruct (selection_changes unicodeUpper generateName setName options selection)
    as (rs & Hruns & Hfaith & Hch).
  exists (existsb fst rs), (List.map snd rs).
  split; [apply renameLayersInSelection_completes, Hruns|].
  split; [|apply faithful_changes_all_nil, Hfaith].
  eapply changes_all_Forall; [exact Hch|].
  intros root e Hin (Hw & Hr & Hg & Hne).
  destruct (reaches_strategy_gates unicodeUpper options (fst e) Hr)
    as (Hl & Hv & Hi & Hc).
  split; [eauto|]. auto 10.
Qed.

(** X8.  A run on a selection is the runs on its parts: the run on [a ++ b]
    returns the disjunction of the flags of the runs on [a] and on [b], and
    leaves the roots as those runs leave them.  Neither the roots handled
    before nor the cut into batches of 50 has a part in what a root
    becomes. *)
Theorem X8_run_of_a_concatenation unicodeUpper generateName setName a b options :
  exists ba a' bb b',
    completes (renameLayersInSelection unicodeUpper generateName setName a options)
              (ba, a') /\
    completes (renameLayersInSelection unicodeUpper generateName setName b options)
              (bb, b') /\
    completes (renameLayersInSelection unicodeUpper generateName setName (a ++ b) options)
              (ba || bb, a' ++ b').
Proof.
  destruct (Promise_all_map_walks_complete unicodeUpper generateName setName options a)
    as (ra & Hra).
  destruct (Promise_all_map_walks_complete unicodeUpper generateName setName options b)
    as (rb & Hrb).
  exists (existsb fst ra), (List.map snd ra), (existsb fst rb), (List.map snd rb).
  split; [apply renameLayersInSelection_completes, Hra|].
  split; [apply renameLayersInSelection_completes, Hrb|].
  rewrite <- existsb_app, <- map_app.
  apply renameLayersInSelection_completes, Forall2_app; assumption.
Qed.

(** ** The pauses between the batches *)

Lemma pauses_app l l' : pauses (l ++ l') = (pauses l + pauses l')%nat.
Proof. unfold pauses. rewrite List.filter_app, length_app. reflexivity. Qed.

Lemma pauses_none l : Forall (fun e => is_pause e = false) l -> pauses l = 0%nat.
Proof.
  unfold pauses. induction 1 as [|e l He _ IH]; [reflexivity|].
  simpl. rewrite He. exact IH.
Qed.

Section Pauses.
Variable unicodeUpper : N -> list N.
Variable generateName : NamingStrategy.
Variable setName : NameAssignment.
Variable options : AllOptions.

Lemma renameLayer_no_pause node :
  Forall (fun e => is_pause e = false)
         (events (renameLayer unicodeUpper generateName setName node options)).
Proof.
  destruct (reaches_strategy unicodeUpper options node) eqn:Hr.
  - rewrite (renameLayer_attempt unicodeUpper generateName setName options node Hr).
    destruct (generateName node options) as [s|e].
    + destruct (str_eqb (Node.name node) s); [constructor|].
      destruct (setName node s); repeat constructor.
    + repeat constructor.
  - destruct (renameLayer_skip_events unicodeUpper generateName setName options
                node Hr) as [-> | (-> & _)]; repeat constructor.
Qed.

Lemma batch_no_pause (batch : list SceneNode) :
  pauses (events (Promise_all_map
                    (fun node =>
                       renameNodeAndChildren unicodeUpper generateName setName node options)
                    batch)) = 0%nat.
Proof.
  apply pauses_none, Promise_all_map_events_Forall. intros node _.
  apply renameNodeAndChildren_events_Forall, renameLayer_no_pause.
Qed.

(** The loop pauses once after each batch but the last. *)
Lemma processBatchLoop_pauses nodes fuel :
  forall i hasRenamed,
    (length nodes - i <= fuel * batchSize)%nat ->
    pauses (events (processBatchLoop unicodeUpper generateName setName fuel i nodes
                                     options hasRenamed))
    = ((length nodes - i - 1) / batchSize)%nat.
Proof.
  induction fuel as [|fuel IH]; intros i h Hfuel.
  - simpl in *. replace (length nodes - i - 1)%nat with 0%nat by lia.
    reflexivity.
  - cbn [processBatchLoop].
    destruct (Nat.ltb_spec i (length nodes)) as [Hlt|Hge].
    + destruct (Promise_all_map_walks_complete unicodeUpper generateName setName options
                  (slice i (i + batchSize) nodes)) as (rs & Hrs).
      apply Promise_all_map_Forall2 in Hrs.
      rewrite (events_bind _ _ rs Hrs), pauses_app, batch_no_pause.
      assert (Hfuel' : (length nodes - (i + batchSize) <= fuel * batchSize)%nat).
      { unfold batchSize in *. simpl in Hfuel. lia. }
      destruct (Promise_all_map_walks_complete unicodeUpper generateName setName options
                  (skipn (i + batchSize) nodes)) as (rest & Hrest).
      pose proof (processBatchLoop_completes unicodeUpper generateName setName options
                    nodes fuel (i + batchSize)%nat (h || existsb fst rs) rest
                    Hfuel' Hrest) as Hloop.
      destruct (Nat.ltb_spec (i + batchSize) (length nodes)) as [Hmore|Hlast].
      * rewrite (events_bind _ _ tt (eq_refl : completes (emit [setTimeout0]) tt)).
        rewrite pauses_app.
        rewrite (events_bind _ _ _ Hloop), pauses_app, (IH _ _ Hfuel').
        cbn [events snd emit ret pauses List.filter is_pause length app].
        replace (length nodes - i - 1)%nat
          with ((length nodes - (i + batchSize) - 1) + 1 * batchSize)%nat
          by (unfold batchSize in *; lia).
        rewrite Nat.div_add by (unfold batchSize; lia). lia.
      * rewrite (events_bind _ _ tt (eq_refl : completes (ret tt) tt)).
        rewrite pauses_app.
        rewrite (events_bind _ _ _ Hloop), pauses_app, (IH _ _ Hfuel').
        cbn [events snd emit ret pauses List.filter is_pause length app].
        rewrite !Nat.div_small by (unfold batchSize in *; lia).
        reflexivity.
    + replace (length nodes - i - 1)%nat with 0%nat by lia. reflexivity.
Qed.

End Pauses.

(** X9.  A run pauses once between two batches of 50 roots, and not after
    the last: on [n] roots it pauses [(n - 1) / 50] times, so not at all on
    50 roots or fewer.  On the empty selection it returns false at once,
    with no event. *)
Theorem X9_pauses_between_batches unicodeUpper generateName setName selection options :
  pauses (events (renameLayersInSelection unicodeUpper generateName setName
                                          selection options))
  = ((length selection - 1) / 50)%nat /\
  ((length selection <= 50)%nat ->
   pauses (events (renameLayersInSelection unicodeUpper generateName setName
                                           selection options)) = 0%nat) /\
  renameLayersInSelection unicodeUpper generateName setName [] options = ret (false, []).
Proof.
  assert (H : pauses (events (renameLayersInSelection unicodeUpper generateName setName
                                                      selection options))
              = ((length selection - 1) / 50)%nat).
  { rewrite renameLayersInSelection_events_eq. unfold processBatchNodes.
    rewrite processBatchLoop_pauses by (unfold batchSize; lia).
    rewrite Nat.sub_0_r. reflexivity. }
  split; [exact H|]. split; [|reflexivity].
  intros Hle. rewrite H. apply Nat.div_small. lia.
Qed.

Lemma X9_pauses_between_batches_witness :
  length manyNodes = 120%nat /\
  pauses (events (renameLayersInSelection plainUpper (constantStrategy "layer") alwaysAssigns
                                          manyNodes defaultOptions)) = 2%nat /\
  pauses (events (renameLayersInSelection plainUpper (constantStrategy "layer") alwaysAssigns
                                          tenNodes defaultOptions)) = 0%nat.
Proof.
  split; [reflexivity|]. split.
  - destruct (X9_pauses_between_batches plainUpper (constantStrategy "layer") alwaysAssigns
                manyNodes defaultOptions) as (Hcount & _).
    rewrite Hcount. reflexivity.
  - destruct (X9_pauses_between_batches plainUpper (constantStrategy "layer") alwaysAssigns
                tenNodes defaultOptions) as (_ & Hsmall & _).
    apply Hsmall. vm_compute. lia.
Defined.

(** ** The RENAME command *)

(** X11.  The handler of the RENAME command never throws and shows one
    result.  The host skips the invisible children of instances unless both
    [instance] and [hidden] are on.  When the settings are saved, the run
    follows, and the handler ends with the notification of completion if
    the name of some layer changed, and with the notification that nothing
    needs renaming if none did.  When the saving fails, no layer is renamed
    and the handler reports the error and shows the error notification. *)
Theorem X11_RENAME_command unicodeUpper generateName setName saveSettingsAsync
        selection options :
  skipInvisibleInstanceChildren
    (on_RENAME unicodeUpper generateName setName saveSettingsAsync selection options)
  = negb (Options.instance options && Options.hidden options) /\
  match saveSettingsAsync options with
  | Return _ =>
      exists b selection',
        completes (renameLayersInSelection unicodeUpper generateName setName
                                           selection options) (b, selection') /\
        (b = true <-> selection' <> selection) /\
        on_RENAME unicodeUpper generateName setName saveSettingsAsync selection options
        = mkHandled (negb (Options.instance options && Options.hidden options))
                    true (Some selection')
                    (List.map layer_event
                       (events (renameLayersInSelection unicodeUpper generateName setName
                                                        selection options))
                     ++ [if b then notify_completed else notify_nothing_to_rename])
  | Throw error =>
      on_RENAME unicodeUpper generateName setName saveSettingsAsync selection options
      = mkHandled (negb (Options.instance options && Options.hidden options))
                  true (Some selection)
                  [console_error_run error; notify_run_error]
  | Pending =>
      on_RENAME unicodeUpper generateName setName saveSettingsAsync selection options
      = mkHandled (negb (Options.instance options && Options.hidden options))
                  false (Some selection) []
  end.
Proof.
  unfold on_RENAME.
  destruct (selection_results unicodeUpper generateName setName options selection)
    as (rs & Hrs).
  assert (Hruns : Forall2
                    (fun node r =>
                       completes (renameNodeAndChildren unicodeUpper generateName setName
                                                        node options) r)
                    selection rs).
  { eapply Forall2_impl; [exact Hrs|]. simpl. tauto. }
  assert (Hfaith : Forall2 faithful_result selection rs).
  { eapply Forall2_impl; [exact Hrs|]. simpl. tauto. }
  pose proof (renameLayersInSelection_completes unicodeUpper generateName setName options
                selection rs Hruns) as Hrun.
  destruct (saveSettingsAsync options) as [[]|error|].
  - destruct (renameLayersInSelection unicodeUpper generateName setName selection options)
      as [c l] eqn:E.
    unfold completes in Hrun. simpl in Hrun. subst c.
    split; [reflexivity|].
    exists (existsb fst rs), (List.map snd rs).
    split; [reflexivity|]. split; [|reflexivity]. split.
    + apply Forall2_faithful_changed, Hfaith.
    + intros Hne. destruct (existsb fst rs) eqn:Eb; [reflexivity|].
      destruct (Hne (Forall2_faithful_unchanged _ _ Hfaith Eb)).
  - split; reflexivity.
  - split; reflexivity.
Qed.
